(** * hash-session-logs: a shallow embedding of [scripts/hash-session-logs.cjs]

    The script reads a JSON Lines file, replaces every large base64 payload
    by its SHA-256 digest and writes the rewritten records to a new file.

    Definitions, in this order:
    - [JsString]  ECMAScript strings (sequences of UTF-16 code units),
                  their UTF-8 encoding, [String.prototype.replace];
    - [Sha256], [Crypto]  the digest and the [Hash] object of
                  [crypto.createHash('sha256')];
    - [hashData]  (lines 17-19);
    - [JsNumber]  binary64 Numbers, their reading and printing;
    - [value], [Completion], [processObject]  (lines 22-43);
    - [Json]      [JSON.parse] and [JSON.stringify];
    - [Path]      [path.basename] and [path.join] (POSIX);
    - [WriteStream], [Driver], [processJsonlFile]  (lines 46-139);
    - the predicates the properties are stated with.

    The properties follow.  The engine's own functions ([JSON], [crypto],
    [path], Number conversions) are modelled after ECMA-262 and Node's
    documentation and checked on test vectors at the end of the file.
    The command-line entry point ([main], lines 142-194) is not part of
    the model. *)

From Stdlib Require Import String Ascii.
From Stdlib Require Import List NArith ZArith Lia Bool.
From Stdlib Require Import SpecFloat DecimalString.
Import ListNotations.

Set Implicit Arguments.

(* ------------------------------------------------------------------ *)
(** ** ECMAScript strings *)

(** An ECMAScript string is a finite sequence of 16-bit code units;
    [length] is the [.length] property. *)
Definition jsstring := list N.

Module JsString.
Local Open Scope N_scope.

(** A literal written with ASCII characters. *)
Definition str (s : String.string) : jsstring :=
  map N_of_ascii (String.list_ascii_of_string s).
Arguments str s%_string.

Definition eqb (a b : jsstring) : bool :=
  if list_eq_dec N.eq_dec a b then true else false.

Definition LF : N := 10.

Definition is_high_surrogate (c : N) : bool := (0xD800 <=? c) && (c <=? 0xDBFF).
Definition is_low_surrogate (c : N) : bool := (0xDC00 <=? c) && (c <=? 0xDFFF).

(** UTF-8 encoding of a code point. *)
Definition utf8_of_code_point (cp : N) : list N :=
  if cp <? 0x80 then [cp]
  else if cp <? 0x800 then
    [N.lor 0xC0 (N.shiftr cp 6); N.lor 0x80 (N.land cp 0x3F)]
  else if cp <? 0x10000 then
    [N.lor 0xE0 (N.shiftr cp 12);
     N.lor 0x80 (N.land (N.shiftr cp 6) 0x3F);
     N.lor 0x80 (N.land cp 0x3F)]
  else
    [N.lor 0xF0 (N.land (N.shiftr cp 18) 0x07);
     N.lor 0x80 (N.land (N.shiftr cp 12) 0x3F);
     N.lor 0x80 (N.land (N.shiftr cp 6) 0x3F);
     N.lor 0x80 (N.land cp 0x3F)].

(** The bytes Node writes for a string in its default ['utf8'] encoding:
    a surrogate pair is one 4-byte sequence, a lone surrogate becomes
    U+FFFD. *)
Fixpoint utf8_encode (s : jsstring) : list N :=
  match s with
  | [] => []
  | c :: rest =>
      if is_high_surrogate c then
        match rest with
        | d :: rest' =>
            if is_low_surrogate d
            then utf8_of_code_point
                   (0x10000 + N.shiftl (c - 0xD800) 10 + (d - 0xDC00))
                   ++ utf8_encode rest'
            else utf8_of_code_point 0xFFFD ++ utf8_encode rest
        | [] => utf8_of_code_point 0xFFFD
        end
      else if is_low_surrogate c then utf8_of_code_point 0xFFFD ++ utf8_encode rest
      else utf8_of_code_point c ++ utf8_encode rest
  end.

Definition byteLength (s : jsstring) : nat := length (utf8_encode s).

(** [s.indexOf(c) !== -1] for a single code unit. *)
Definition mem (c : N) (s : jsstring) : bool := existsb (N.eqb c) s.

Definition count (c : N) (s : jsstring) : nat :=
  length (filter (N.eqb c) s).

Fixpoint starts_with (pat s : jsstring) : bool :=
  match pat, s with
  | [], _ => true
  | a :: pat', b :: s' => (a =? b) && starts_with pat' s'
  | _ :: _, [] => false
  end.

(** [s.replace(pat, rep)] for a string pattern and a replacement
    without a dollar sign: the first occurrence of [pat], and only that
    one, is replaced. *)
Fixpoint replace (pat rep s : jsstring) : jsstring :=
  if starts_with pat s then rep ++ skipn (length pat) s
  else match s with
       | [] => []
       | c :: rest => c :: replace pat rep rest
       end.

End JsString.
Import JsString.
Arguments str s%_string.

(* ------------------------------------------------------------------ *)
(** ** SHA-256 (FIPS 180-4) on 32-bit words held in [N] *)

Module Sha256.
Local Open Scope N_scope.

Definition w32 (x : N) : N := x mod 2 ^ 32.
Definition add32 (x y : N) : N := w32 (x + y).
Definition rotr (n x : N) : N :=
  w32 (N.lor (N.shiftr x n) (N.shiftl x (32 - n))).
Definition not32 (x : N) : N := N.lxor x 0xFFFFFFFF.

Definition Ch (x y z : N) : N := N.lxor (N.land x y) (N.land (not32 x) z).
Definition Maj (x y z : N) : N :=
  N.lxor (N.lxor (N.land x y) (N.land x z)) (N.land y z).
Definition bsig0 (x : N) : N := N.lxor (N.lxor (rotr 2 x) (rotr 13 x)) (rotr 22 x).
Definition bsig1 (x : N) : N := N.lxor (N.lxor (rotr 6 x) (rotr 11 x)) (rotr 25 x).
Definition ssig0 (x : N) : N := N.lxor (N.lxor (rotr 7 x) (rotr 18 x)) (N.shiftr x 3).
Definition ssig1 (x : N) : N := N.lxor (N.lxor (rotr 17 x) (rotr 19 x)) (N.shiftr x 10).

(** The constants are the leading 32 fractional bits of the square roots
    (initial hash value) and cube roots (round constants) of the first
    primes; they are computed here rather than tabulated. *)
Definition is_prime (n : N) : bool :=
  (2 <=? n) &&
  forallb (fun d => negb (n mod d =? 0) || (n <=? d))
          (map N.of_nat (seq 2%nat (N.to_nat (N.sqrt n)))).

Definition primes64 : list N :=
  Eval vm_compute in filter is_prime (map N.of_nat (seq 2 310%nat)).

(** Largest [r] below [2^36] with [r^3 <= n], found bit by bit. *)
Definition icbrt (n : N) : N :=
  fold_left (fun r b => let r' := r + 2 ^ b in if r' * r' * r' <=? n then r' else r)
            (map N.of_nat (rev (seq 0 36%nat))) 0.

Definition H0 : list N :=
  Eval vm_compute in map (fun p => w32 (N.sqrt (p * 2 ^ 64))) (firstn 8%nat primes64).

Definition K : list N :=
  Eval vm_compute in map (fun p => w32 (icbrt (p * 2 ^ 96))) primes64.

(** Big-endian word of four bytes, and back. *)
Definition word_of_bytes (b : list N) : N :=
  fold_left (fun acc x => acc * 256 + x) b 0.
Definition bytes_of_word (n : nat) (x : N) : list N :=
  map (fun i => N.land (N.shiftr x (8 * N.of_nat i)) 0xFF) (rev (seq 0%nat n)).

Fixpoint words_of_block (fuel : nat) (b : list N) : list N :=
  match fuel with
  | O => []
  | S f => word_of_bytes (firstn 4 b) :: words_of_block f (skipn 4 b)
  end.

(** Message schedule, newest word first: [W_t] is at the head. *)
Fixpoint schedule (n : nat) (ws : list N) : list N :=
  match n with
  | O => ws
  | S n' =>
      let w2 := nth 1 ws 0 in
      let w7 := nth 6 ws 0 in
      let w15 := nth 14 ws 0 in
      let w16 := nth 15 ws 0 in
      schedule n' (add32 (add32 (ssig1 w2) w7) (add32 (ssig0 w15) w16) :: ws)
  end.

Record regs := Regs { ra : N; rb : N; rc : N; rd : N; re : N; rf : N; rg : N; rh : N }.

Definition round (r : regs) (kw : N * N) : regs :=
  let (k, w) := kw in
  let t1 := add32 (add32 (add32 (rh r) (bsig1 (re r))) (add32 (Ch (re r) (rf r) (rg r)) k)) w in
  let t2 := add32 (bsig0 (ra r)) (Maj (ra r) (rb r) (rc r)) in
  Regs (add32 t1 t2) (ra r) (rb r) (rc r) (add32 (rd r) t1) (re r) (rf r) (rg r).

Definition compress (h : regs) (block : list N) : regs :=
  let ws := rev (schedule 48 (rev (words_of_block 16 block))) in
  let r := fold_left round (combine K ws) h in
  Regs (add32 (ra h) (ra r)) (add32 (rb h) (rb r)) (add32 (rc h) (rc r))
       (add32 (rd h) (rd r)) (add32 (re h) (re r)) (add32 (rf h) (rf r))
       (add32 (rg h) (rg r)) (add32 (rh h) (rh r)).

Definition init : regs :=
  Regs (nth 0 H0 0) (nth 1 H0 0) (nth 2 H0 0) (nth 3 H0 0)
       (nth 4 H0 0) (nth 5 H0 0) (nth 6 H0 0) (nth 7 H0 0).

(** Padding: a [1] bit, zeros up to 56 mod 64, the bit length on 8 bytes. *)
Definition pad (msg : list N) : list N :=
  let len := length msg in
  let zeros := ((64 - (len + 9) mod 64) mod 64)%nat in
  msg ++ [0x80] ++ repeat 0 zeros ++ bytes_of_word 8 (8 * N.of_nat len).

(** Absorb the padded message one byte at a time; a block is compressed
    as soon as 64 bytes are buffered. *)
Definition absorb (st : regs * list N) (byte : N) : regs * list N :=
  let (h, buf) := st in
  let buf' := buf ++ [byte] in
  if Nat.eqb (length buf') 64%nat then (compress h buf', []) else (h, buf').

Definition digest_words (r : regs) : list N :=
  [ra r; rb r; rc r; rd r; re r; rf r; rg r; rh r].

(** The 32-byte digest. *)
Definition sha256 (msg : list N) : list N :=
  flat_map (bytes_of_word 4) (digest_words (fst (fold_left absorb (pad msg) (init, [])))).

End Sha256.

(* ------------------------------------------------------------------ *)
(** ** The [crypto] Hash object *)

Module Crypto.
Local Open Scope N_scope.

(** A Hash object accumulates the bytes it has been given. *)
Record Hash := { algorithm : jsstring; absorbed : list N }.

Definition createHash (alg : jsstring) : Hash :=
  {| algorithm := alg; absorbed := [] |}.

(** [hash.update(data)] with a string argument and no encoding: the
    string is encoded as UTF-8. *)
Definition update (h : Hash) (data : jsstring) : Hash :=
  {| algorithm := algorithm h; absorbed := absorbed h ++ utf8_encode data |}.

Definition hex_digit (n : N) : N := if n <? 10 then 48 + n else 87 + n.

(** ['hex'] encoding of a buffer: two lowercase digits per byte. *)
Definition hex (bytes : list N) : jsstring :=
  flat_map (fun b => [hex_digit (N.shiftr b 4 mod 16); hex_digit (b mod 16)]) bytes.

(** [hash.digest('hex')]; the script only ever asks for ['sha256']. *)
Definition digest_hex (h : Hash) : jsstring := hex (Sha256.sha256 (absorbed h)).

End Crypto.

(** [hashData] (lines 17-19). *)
Definition hashData (data : jsstring) : jsstring :=
  Crypto.digest_hex (Crypto.update (Crypto.createHash (str "sha256")) data).

(* ------------------------------------------------------------------ *)
(** ** Numbers: IEEE-754 binary64 and its decimal conversions *)

Module JsNumber.
Local Open Scope Z_scope.

Definition prec : Z := 53.
Definition emax : Z := 1024.

Definition digits_of (n : Z) : jsstring :=
  str (NilZero.string_of_uint (N.to_uint (Z.to_N n))).

(** The Number nearest to [(-1)^neg * m * 10^e10], ties to even
    (StringNumericValue followed by rounding).  A negative exponent is a
    division: the quotient is taken with more than 64 significant bits
    and a sticky last bit, which rounds as the exact value does. *)
Definition of_decimal (neg : bool) (m : Z) (e10 : Z) : spec_float :=
  let sgn := fun z : Z => if neg then - z else z in
  if 0 <=? e10 then binary_normalize prec emax (sgn (m * 10 ^ e10)) 0 neg
  else
    let den := 10 ^ (- e10) in
    let k := Z.max 0 (Z.log2 den + 65 - Z.log2 m) in
    let q := (m * 2 ^ k) / den in
    let sticky := if (m * 2 ^ k) mod den =? 0 then 0 else 1 in
    binary_normalize prec emax (sgn (2 * q + sticky)) (- (k + 1)) neg.

Definition is_finite (x : spec_float) : bool :=
  match x with S754_zero _ | S754_finite _ _ _ => true | _ => false end.

Section ToString.
(** The positive value [num / den] being printed, and the Number [x]
    it is the exact value of. *)
Variables (x : spec_float) (num den : Z).

(** The least [j >= 1] with [num * 10^j >= den]. *)
Fixpoint first_digit_pos (fuel : nat) (j : Z) : Z :=
  match fuel with
  | O => j
  | S f => if den <=? num * 10 ^ j then j else first_digit_pos f (j + 1)
  end.

(** [n] with [10^(n-1) <= num/den < 10^n]. *)
Definition dec_exponent : Z :=
  if den <=? num then Z.of_nat (length (digits_of (num / den)))
  else 1 - first_digit_pos 400 1.

(** The shortest [s] (of [k] digits) and the [n] such that
    [s * 10^(n-k)] reads back as [x]; of two candidates the one
    nearer to the value. *)
Fixpoint shortest (fuel : nat) (k : Z) (n : Z) : Z * Z :=
  let pn := if n <=? k then num * 10 ^ (k - n) else num in
  let pd := if n <=? k then den else den * 10 ^ (n - k) in
  let lo := pn / pd in
  let hi := lo + 1 in
  let reads_back := fun s => SFeqb (of_decimal false s (n - k)) x in
  let lo_nearer := 2 * pn - 2 * lo * pd <=? pd in
  match fuel with
  | O => (lo, n)
  | S f =>
      if reads_back lo && (lo_nearer || negb (reads_back hi)) then (lo, n)
      else if reads_back hi then
             if hi =? 10 ^ k then (10 ^ (k - 1), n + 1) else (hi, n)
      else shortest f (k + 1) n
  end.
End ToString.

(** Number::toString for a positive finite value, radix 10. *)
Definition positive_to_string (x : spec_float) (m : positive) (e : Z) : jsstring :=
  let num := if 0 <=? e then Zpos m * 2 ^ e else Zpos m in
  let den := if 0 <=? e then 1 else 2 ^ (- e) in
  let (s, n) := shortest x num den 17 1 (dec_exponent num den) in
  let ds := digits_of s in
  let k := Z.of_nat (length ds) in
  if (-5 <=? n) && (n <=? 21) then
    if k <=? n then ds ++ repeat 48%N (Z.to_nat (n - k))
    else if 0 <? n then firstn (Z.to_nat n) ds ++ str "." ++ skipn (Z.to_nat n) ds
    else str "0." ++ repeat 48%N (Z.to_nat (- n)) ++ ds
  else
    let e' := n - 1 in
    let sign := if e' <? 0 then str "-" else str "+" in
    if k =? 1 then ds ++ str "e" ++ sign ++ digits_of (Z.abs e')
    else firstn 1 ds ++ str "." ++ skipn 1 ds ++ str "e" ++ sign ++ digits_of (Z.abs e').

(** Number::toString. *)
Definition to_string (x : spec_float) : jsstring :=
  match x with
  | S754_nan => str "NaN"
  | S754_zero _ => str "0"
  | S754_infinity neg => if neg then str "-Infinity" else str "Infinity"
  | S754_finite neg m e =>
      (if neg then str "-" else []) ++ positive_to_string (S754_finite false m e) m e
  end.

End JsNumber.

(* ------------------------------------------------------------------ *)
(** ** Values and completions *)

(** The values [JSON.parse] produces.  A Number is an IEEE-754 binary64,
    held as a [spec_float]; an object is the list of its own properties in
    the order the engine enumerates them (the keys of an object are
    distinct, see [distinct_keys]). *)
#[local] Unset Elimination Schemes.
Inductive value : Type :=
| JNull
| JBool (b : bool)
| JNumber (x : spec_float)
| JString (s : jsstring)
| JArray (items : list value)
| JObject (props : list (jsstring * value)).
#[local] Set Elimination Schemes.

Inductive error : Type := SyntaxError | TypeError.

(** How a call ends.  [processObject] mutates its argument in place, so a
    completion carries the state [st] of the object graph it was working
    on, also when it ends by throwing. *)
Inductive Completion (A : Type) : Type :=
| Normal (st : A)
| Throw (e : error) (st : A).
Arguments Normal {A} st.
Arguments Throw {A} e st.

Definition state_of {A} (c : Completion A) : A :=
  match c with Normal st => st | Throw _ st => st end.

Definition thrown {A} (c : Completion A) : option error :=
  match c with Normal _ => None | Throw e _ => Some e end.

Definition lift {A B} (f : A -> B) (c : Completion A) : Completion B :=
  match c with Normal st => Normal (f st) | Throw e st => Throw e (f st) end.

Section Loops.
Context {A : Type}.
(** [cur x] is the slot [x] as the loop finds it when it gets there;
    [body] is the loop body.  A throw leaves the loop: the slots already
    visited keep their new state, the others are as [cur] gives them. *)
Variable cur : A -> A.
Variable body : A -> Completion A.

Fixpoint each (l : list A) : Completion (list A) :=
  match l with
  | [] => Normal []
  | x :: rest =>
      match body x with
      | Throw e x' => Throw e (x' :: map cur rest)
      | Normal x' =>
          match each rest with
          | Normal rest' => Normal (x' :: rest')
          | Throw e rest' => Throw e (x' :: rest')
          end
      end
  end.
End Loops.

(** [obj[key]] on own properties; [None] is [undefined]. *)
Fixpoint Get (key : jsstring) (props : list (jsstring * value)) : option value :=
  match props with
  | [] => None
  | (k, v) :: rest => if eqb k key then Some v else Get key rest
  end.

Definition hasOwn (key : jsstring) (props : list (jsstring * value)) : bool :=
  match Get key props with Some _ => true | None => false end.

(** [obj[key] = v] for a key the object already has: the property keeps
    its place. *)
Definition Set_ (key : jsstring) (v : value) (props : list (jsstring * value))
  : list (jsstring * value) :=
  map (fun kv => if eqb (fst kv) key then (fst kv, v) else kv) props.

(** The test of line 31; when it holds, the string to be hashed. *)
Definition base64_data (props : list (jsstring * value)) : option jsstring :=
  match Get (str "type") props, Get (str "data") props with
  | Some (JString t), Some (JString d) =>
      if eqb t (str "base64") && (100 <? length d)%nat then Some d else None
  | _, _ => None
  end.

(** [processObject] (lines 22-43).  The recursion is on the value as it
    was when the call started; [obj[key]] is read from the mutated object,
    where the [data] slot may already hold the digest (a string, on which
    the recursive call does nothing).  [obj.hasOwnProperty] is the
    inherited method unless the object has an own property of that name,
    which for a parsed value is never callable: the call then throws.
    [processObject_object] restates the object case in the order of the
    source. *)
Fixpoint processObject (obj : value) : Completion value :=
  match obj with
  | JNull => Normal obj
  | JArray items => lift JArray (each (fun item => item) processObject items)
  | JObject props =>
      let hashed := option_map hashData (base64_data props) in
      let cur := fun kv : jsstring * value =>
        match hashed with
        | Some h => if eqb (fst kv) (str "data") then (fst kv, JString h) else kv
        | None => kv
        end in
      let body := fun kv : jsstring * value =>
        if hasOwn (str "hasOwnProperty") props then Throw TypeError (cur kv)
        else
          match hashed, eqb (fst kv) (str "data") with
          | Some h, true => Normal (fst kv, JString h)
          | _, _ => lift (pair (fst kv)) (processObject (snd kv))
          end in
      lift JObject (each cur body props)
  | _ => Normal obj
  end.

(* ------------------------------------------------------------------ *)
(** ** [JSON.parse] and [JSON.stringify] *)

Module Json.
Local Open Scope N_scope.

(** *** Object construction *)

Definition is_digit (c : N) : bool := (48 <=? c) && (c <=? 57).

Definition nat_of_digits (ds : jsstring) : N :=
  fold_left (fun acc c => acc * 10 + (c - 48)) ds 0.

(** An array index is the canonical decimal form of an integer below
    [2^32 - 1]. *)
Definition array_index (key : jsstring) : option N :=
  match key with
  | [] => None
  | c :: rest =>
      if forallb is_digit key && (negb (c =? 48) || (length rest =? 0)%nat)
         && (length key <=? 10)%nat && (nat_of_digits key <? 2 ^ 32 - 1)
      then Some (nat_of_digits key) else None
  end.

(** Place of a new index property: after the smaller indices. *)
Fixpoint insert_index (i : N) (key : jsstring) (v : value)
         (props : list (jsstring * value)) : list (jsstring * value) :=
  match props with
  | [] => [(key, v)]
  | (k, w) :: rest =>
      match array_index k with
      | Some j => if j <? i then (k, w) :: insert_index i key v rest
                  else (key, v) :: props
      | None => (key, v) :: props
      end
  end.

(** CreateDataProperty on an ordinary object, with the own keys kept in
    the order of OrdinaryOwnPropertyKeys: array indices ascending, then
    the other keys in creation order.  A key met again keeps its place
    and takes the new value. *)
Definition define_property (key : jsstring) (v : value)
           (props : list (jsstring * value)) : list (jsstring * value) :=
  if hasOwn key props then Set_ key v props
  else match array_index key with
       | Some i => insert_index i key v props
       | None => props ++ [(key, v)]
       end.

(** *** Lexical grammar *)

Definition is_ws (c : N) : bool :=
  (c =? 32) || (c =? 9) || (c =? 10) || (c =? 13).

Fixpoint skip_ws (s : jsstring) : jsstring :=
  match s with
  | c :: rest => if is_ws c then skip_ws rest else s
  | [] => []
  end.

Inductive presult (A : Type) : Type :=
| POk (a : A) (rest : jsstring)
| PError
| PFuel.
Arguments POk {A} a rest.
Arguments PError {A}.
Arguments PFuel {A}.

Definition hex_value (c : N) : option N :=
  if is_digit c then Some (c - 48)
  else if (97 <=? c) && (c <=? 102) then Some (c - 87)
  else if (65 <=? c) && (c <=? 70) then Some (c - 55)
  else None.

Definition hex4 (a b c d : N) : option N :=
  match hex_value a, hex_value b, hex_value c, hex_value d with
  | Some x, Some y, Some z, Some w => Some (((x * 16 + y) * 16 + z) * 16 + w)
  | _, _, _, _ => None
  end.

(** The character after a backslash, for the two-character escapes:
    quotation mark, reverse solidus, solidus, b, f, n, r, t. *)
Definition simple_escape (c : N) : option N :=
  if c =? 34 then Some 34
  else if c =? 92 then Some 92
  else if c =? 47 then Some 47
  else if c =? 98 then Some 8
  else if c =? 102 then Some 12
  else if c =? 110 then Some 10
  else if c =? 114 then Some 13
  else if c =? 116 then Some 9
  else None.

(** The characters of a string literal after its opening quote. *)
Fixpoint parse_chars (s : jsstring) : option (jsstring * jsstring) :=
  match s with
  | [] => None
  | c :: rest =>
      if c =? 34 then Some ([], rest)
      else if c =? 92 then
        match rest with
        | e :: rest1 =>
            if e =? 117 then
              match rest1 with
              | h1 :: h2 :: h3 :: h4 :: rest2 =>
                  match hex4 h1 h2 h3 h4, parse_chars rest2 with
                  | Some u, Some (cs, r) => Some (u :: cs, r)
                  | _, _ => None
                  end
              | _ => None
              end
            else
              match simple_escape e, parse_chars rest1 with
              | Some u, Some (cs, r) => Some (u :: cs, r)
              | _, _ => None
              end
        | [] => None
        end
      else if c <? 32 then None
      else match parse_chars rest with
           | Some (cs, r) => Some (c :: cs, r)
           | None => None
           end
  end.

Fixpoint span_digits (s : jsstring) : jsstring * jsstring :=
  match s with
  | c :: rest => if is_digit c
                 then let (ds, r) := span_digits rest in (c :: ds, r)
                 else ([], s)
  | [] => ([], [])
  end.

(** A number literal: [-? int frac? exp?], no leading zero in [int]. *)
Definition parse_number (s : jsstring) : option (spec_float * jsstring) :=
  let (neg, s1) := match s with
                   | c :: r => if c =? 45 then (true, r) else (false, s)
                   | [] => (false, s)
                   end in
  let (int, s2) := span_digits s1 in
  match int with
  | [] => None
  | d :: more =>
      if (d =? 48) && negb (length more =? 0)%nat then None
      else
        let frac_r :=
          match s2 with
          | c :: r =>
              if c =? 46 then
                let (fr, r') := span_digits r in
                match fr with [] => None | _ => Some (fr, r') end
              else Some ([], s2)
          | [] => Some ([], s2)
          end in
        match frac_r with
        | None => None
        | Some (frac, s3) =>
            let exp_r :=
              match s3 with
              | c :: r =>
                  if (c =? 101) || (c =? 69) then
                    let (eneg, r1) :=
                      match r with
                      | sg :: r' => if sg =? 45 then (true, r')
                                    else if sg =? 43 then (false, r')
                                    else (false, r)
                      | [] => (false, r)
                      end in
                    let (ex, r2) := span_digits r1 in
                    match ex with
                    | [] => None
                    | _ => Some (if eneg then (- Z.of_N (nat_of_digits ex))%Z
                                 else Z.of_N (nat_of_digits ex), r2)
                    end
                  else Some (0%Z, s3)
              | [] => Some (0%Z, s3)
              end in
            match exp_r with
            | None => None
            | Some (e, s4) =>
                Some (JsNumber.of_decimal neg
                        (Z.of_N (nat_of_digits (int ++ frac)))
                        (e - Z.of_nat (length frac))%Z, s4)
            end
        end
  end.

Fixpoint expect (lit : jsstring) (s : jsstring) : option jsstring :=
  match lit, s with
  | [], _ => Some s
  | a :: lit', b :: s' => if a =? b then expect lit' s' else None
  | _ :: _, [] => None
  end.

(** *** Syntactic grammar: recursive descent

    [fuel] bounds the depth of calls; [parse] gives enough of it
    ([parse_value_fuel] below), so [PFuel] never comes out. *)
Fixpoint parse_value (fuel : nat) (s : jsstring) : presult value :=
  match fuel with
  | O => PFuel
  | S f =>
      match skip_ws s with
      | [] => PError
      | c :: rest =>
          if c =? 123 then
            match skip_ws rest with
            | d :: rest' =>
                if d =? 125 then POk (JObject []) rest'
                else parse_members f [] (skip_ws rest)
            | [] => PError
            end
          else if c =? 91 then
            match skip_ws rest with
            | d :: rest' =>
                if d =? 93 then POk (JArray []) rest'
                else parse_elements f [] (skip_ws rest)
            | [] => PError
            end
          else if c =? 34 then
            match parse_chars rest with
            | Some (cs, r) => POk (JString cs) r
            | None => PError
            end
          else if c =? 116 then
            match expect (str "rue") rest with
            | Some r => POk (JBool true) r
            | None => PError
            end
          else if c =? 102 then
            match expect (str "alse") rest with
            | Some r => POk (JBool false) r
            | None => PError
            end
          else if c =? 110 then
            match expect (str "ull") rest with
            | Some r => POk JNull r
            | None => PError
            end
          else
            match parse_number (c :: rest) with
            | Some (x, r) => POk (JNumber x) r
            | None => PError
            end
      end
  end
with parse_elements (fuel : nat) (acc : list value) (s : jsstring)
     : presult value :=
  match fuel with
  | O => PFuel
  | S f =>
      match parse_value f s with
      | POk v rest =>
          match skip_ws rest with
          | d :: rest' =>
              if d =? 44 then parse_elements f (acc ++ [v]) rest'
              else if d =? 93 then POk (JArray (acc ++ [v])) rest'
              else PError
          | [] => PError
          end
      | PError => PError
      | PFuel => PFuel
      end
  end
with parse_members (fuel : nat) (acc : list (jsstring * value)) (s : jsstring)
     : presult value :=
  match fuel with
  | O => PFuel
  | S f =>
      match skip_ws s with
      | q :: r =>
          if q =? 34 then
            match parse_chars r with
            | Some (key, r1) =>
                match skip_ws r1 with
                | col :: r2 =>
                    if col =? 58 then
                      match parse_value f r2 with
                      | POk v rest =>
                          match skip_ws rest with
                          | d :: rest' =>
                              if d =? 44
                              then parse_members f (define_property key v acc) rest'
                              else if d =? 125
                              then POk (JObject (define_property key v acc)) rest'
                              else PError
                          | [] => PError
                          end
                      | PError => PError
                      | PFuel => PFuel
                      end
                    else PError
                | [] => PError
                end
            | None => PError
            end
          else PError
      | [] => PError
      end
  end.

(** [JSON.parse(text)]; [None] is a thrown SyntaxError. *)
Definition parse (text : jsstring) : option value :=
  match parse_value (2 * length text + 1) text with
  | POk v rest => match skip_ws rest with [] => Some v | _ :: _ => None end
  | _ => None
  end.

(** *** Serialization *)

Definition unicode_escape (c : N) : jsstring :=
  [92; 117;
   Crypto.hex_digit (N.shiftr c 12 mod 16); Crypto.hex_digit (N.shiftr c 8 mod 16);
   Crypto.hex_digit (N.shiftr c 4 mod 16); Crypto.hex_digit (c mod 16)].

(** QuoteJSONString without the enclosing quotes: the string is read
    by code point, a lone surrogate is escaped. *)
Fixpoint quote_chars (s : jsstring) : jsstring :=
  match s with
  | [] => []
  | c :: rest =>
      if c =? 8 then [92; 98] ++ quote_chars rest
      else if c =? 9 then [92; 116] ++ quote_chars rest
      else if c =? 10 then [92; 110] ++ quote_chars rest
      else if c =? 12 then [92; 102] ++ quote_chars rest
      else if c =? 13 then [92; 114] ++ quote_chars rest
      else if c =? 34 then [92; 34] ++ quote_chars rest
      else if c =? 92 then [92; 92] ++ quote_chars rest
      else if c <? 32 then unicode_escape c ++ quote_chars rest
      else if is_high_surrogate c then
        match rest with
        | d :: rest' =>
            if is_low_surrogate d then c :: d :: quote_chars rest'
            else unicode_escape c ++ quote_chars rest
        | [] => unicode_escape c
        end
      else if is_low_surrogate c then unicode_escape c ++ quote_chars rest
      else c :: quote_chars rest
  end.

Definition quote (s : jsstring) : jsstring := [34] ++ quote_chars s ++ [34].

Fixpoint join (l : list jsstring) : jsstring :=
  match l with
  | [] => []
  | [x] => x
  | x :: rest => x ++ [44] ++ join rest
  end.

(** [JSON.stringify(value)] with no replacer and no indentation. *)
Fixpoint stringify (v : value) : jsstring :=
  match v with
  | JNull => str "null"
  | JBool b => if b then str "true" else str "false"
  | JNumber x => if JsNumber.is_finite x then JsNumber.to_string x else str "null"
  | JString s => quote s
  | JArray items => [91] ++ join (map stringify items) ++ [93]
  | JObject props =>
      [123] ++ join (map (fun kv => quote (fst kv) ++ [58] ++ stringify (snd kv)) props)
            ++ [125]
  end.

End Json.

(* ------------------------------------------------------------------ *)
(** ** [path] (POSIX) *)

Module Path.
Local Open Scope N_scope.

Definition slash : N := 47.

(** [path.basename(p)]: the trailing slashes are ignored, the name is
    what follows the last slash before them. *)
Fixpoint drop_slashes (s : jsstring) : jsstring :=
  match s with
  | c :: rest => if c =? slash then drop_slashes rest else s
  | [] => []
  end.

Fixpoint take_name (s : jsstring) : jsstring :=
  match s with
  | c :: rest => if c =? slash then [] else c :: take_name rest
  | [] => []
  end.

Definition basename (p : jsstring) : jsstring :=
  rev (take_name (drop_slashes (rev p))).

(** The segments between slashes. *)
Fixpoint split_acc (seg : jsstring) (s : jsstring) : list jsstring :=
  match s with
  | [] => [rev seg]
  | c :: rest => if c =? slash then rev seg :: split_acc [] rest
                 else split_acc (c :: seg) rest
  end.

Definition split (s : jsstring) : list jsstring := split_acc [] s.

(** normalizeString: [stack] holds the segments kept so far, last one
    first. *)
Definition push_segment (allowAboveRoot : bool) (stack : list jsstring)
           (seg : jsstring) : list jsstring :=
  if eqb seg [] || eqb seg (str ".") then stack
  else if eqb seg (str "..") then
    match stack with
    | top :: below =>
        if eqb top (str "..") then
          (if allowAboveRoot then seg :: stack else stack)
        else below
    | [] => if allowAboveRoot then [seg] else []
    end
  else seg :: stack.

Fixpoint join_segments (l : list jsstring) : jsstring :=
  match l with
  | [] => []
  | [x] => x
  | x :: rest => x ++ [slash] ++ join_segments rest
  end.

Definition normalizeString (p : jsstring) (allowAboveRoot : bool) : jsstring :=
  join_segments (rev (fold_left (push_segment allowAboveRoot) (split p) [])).

Definition normalize (p : jsstring) : jsstring :=
  match p with
  | [] => str "."
  | c :: _ =>
      let isAbsolute := c =? slash in
      let trailingSeparator := last p 0 =? slash in
      let q := normalizeString p (negb isAbsolute) in
      match q with
      | [] => if isAbsolute then str "/"
              else if trailingSeparator then str "./" else str "."
      | _ :: _ =>
          let q' := if trailingSeparator then q ++ [slash] else q in
          if isAbsolute then slash :: q' else q'
      end
  end.

(** [path.join(a, b)]. *)
Definition join (a b : jsstring) : jsstring :=
  match a, b with
  | [], [] => str "."
  | [], _ => normalize b
  | _, [] => normalize a
  | _, _ => normalize (a ++ [slash] ++ b)
  end.

End Path.

(* ------------------------------------------------------------------ *)
(** ** The output stream and the file system *)

(** An [fs.WriteStream]: [write] queues a chunk, the queue reaches the
    file asynchronously, [end] asks for the stream to be closed once the
    queue is empty and returns at once. *)
Record WriteStream := {
  flushed : list jsstring;   (* chunks that have reached the file *)
  pending : list jsstring;   (* chunks queued and not yet written *)
  ended : bool
}.

Module Stream.

Definition create : WriteStream :=
  {| flushed := []; pending := []; ended := false |}.

Definition write (chunk : jsstring) (w : WriteStream) : WriteStream :=
  {| flushed := flushed w; pending := pending w ++ [chunk]; ended := ended w |}.

Definition end_ (w : WriteStream) : WriteStream :=
  {| flushed := flushed w; pending := pending w; ended := true |}.

(** The writer completes [k] queued chunks (or all of them if fewer). *)
Definition flush (k : nat) (w : WriteStream) : WriteStream :=
  {| flushed := flushed w ++ firstn k (pending w);
     pending := skipn k (pending w);
     ended := ended w |}.

(** [fs.statSync(outputPath).size]: the bytes in the file now (each
    chunk is encoded on its own). *)
Definition stat_size (w : WriteStream) : nat :=
  list_sum (map byteLength (flushed w)).

(** The size of the file once the queue has drained. *)
Definition final_size (w : WriteStream) : nat :=
  list_sum (map byteLength (flushed w ++ pending w)).

(** What the file holds once the queue has drained. *)
Definition contents (w : WriteStream) : jsstring :=
  concat (flushed w ++ pending w).

End Stream.

(** What the script finds on disk when it starts.  Once the input has
    been found, reading and writing are taken to succeed: a run that an
    I/O error cuts short is outside the model. *)
Record FileSystem := {
  input_exists : bool;   (* fs.existsSync(inputPath) *)
  input_size : nat;      (* fs.statSync(inputPath).size *)
  dir_exists : bool      (* fs.existsSync(outputDir) *)
}.

(* ------------------------------------------------------------------ *)
(** ** [processJsonlFile] (lines 46-139) *)

Inductive console_event : Type :=
| CreatedOutputDirectory
| Progress (lineCount : nat)
| ErrorParsingLine (lineCount : nat) (e : error).

(** The variables the handlers close over. *)
Record Driver := {
  lineCount : nat;
  processedCount : nat;
  errorCount : nat;
  outputStream : WriteStream;
  console : list console_event
}.

(** The object the promise is resolved with (lines 121-127). *)
Record Summary := {
  linesProcessed : nat;
  errors : nat;
  inputSize : nat;
  outputSize : nat;
  outputPath : jsstring
}.

Inductive Outcome : Type :=
| Resolved (s : Summary)
| Rejected (message : jsstring).

(** The [try] block of the ['line'] handler up to the write: the text to
    write, or the exception that sends control to [catch]. *)
Definition transform (line : jsstring) : Completion jsstring :=
  match Json.parse line with
  | None => Throw SyntaxError line
  | Some jsonObj =>
      match processObject jsonObj with
      | Normal jsonObj' => Normal (Json.stringify jsonObj' ++ [LF])
      | Throw e _ => Throw e line
      end
  end.

(** The ['line'] handler (lines 78-102). *)
Definition on_line (st : Driver) (line : jsstring) : Driver :=
  let lineCount' := S (lineCount st) in
  match transform line with
  | Normal text =>
      {| lineCount := lineCount';
         processedCount := S (processedCount st);
         errorCount := errorCount st;
         outputStream := Stream.write text (outputStream st);
         console := console st ++
                    (if Nat.eqb (lineCount' mod 100) 0 then [Progress lineCount'] else []) |}
  | Throw e _ =>
      {| lineCount := lineCount';
         processedCount := processedCount st;
         errorCount := S (errorCount st);
         outputStream := Stream.write (line ++ [LF]) (outputStream st);
         console := console st ++ [ErrorParsingLine lineCount' e] |}
  end.

Definition writer_step (k : nat) (st : Driver) : Driver :=
  {| lineCount := lineCount st; processedCount := processedCount st;
     errorCount := errorCount st;
     outputStream := Stream.flush k (outputStream st);
     console := console st |}.

(** The event loop delivers the lines in order.  [sched] says how many
    queued chunks the writer completes before each handler runs (none
    when the list is exhausted); the last entry used is for the ['close']
    handler. *)
Fixpoint deliver (sched : list nat) (lines : list jsstring) (st : Driver)
  : list nat * Driver :=
  match lines with
  | [] => (sched, st)
  | line :: rest =>
      deliver (tl sched) rest (on_line (writer_step (hd 0 sched) st) line)
  end.

(** The ['close'] handler (lines 104-128), console output left out. *)
Definition on_close (fs : FileSystem) (path : jsstring) (st : Driver)
  : Driver * Summary :=
  let out := Stream.end_ (outputStream st) in
  ({| lineCount := lineCount st; processedCount := processedCount st;
      errorCount := errorCount st; outputStream := out; console := console st |},
   {| linesProcessed := processedCount st;
      errors := errorCount st;
      inputSize := input_size fs;
      outputSize := Stream.stat_size out;
      outputPath := path |}).

Definition initial (fs : FileSystem) : Driver :=
  {| lineCount := 0; processedCount := 0; errorCount := 0;
     outputStream := Stream.create;
     console := if dir_exists fs then [] else [CreatedOutputDirectory] |}.

Definition outputFilename (inputPath : jsstring) : jsstring :=
  let inputFilename := Path.basename inputPath in
  JsString.replace (str ".jsonl") (str ".hashed.jsonl") inputFilename.

(** [processJsonlFile(inputPath, outputDir)] run on a file system [fs]
    whose input file reads as [lines], under the writer schedule [sched]:
    the settled promise, and the driver's final state when it ran. *)
Definition processJsonlFile (fs : FileSystem) (sched : list nat)
           (lines : list jsstring) (inputPath outputDir : jsstring)
  : Outcome * option Driver :=
  if negb (input_exists fs)
  then (Rejected (str "Input file not found: " ++ inputPath), None)
  else
    let path := Path.join outputDir (outputFilename inputPath) in
    let (sched', st) := deliver sched lines (initial fs) in
    let (st', summary) := on_close fs path (writer_step (hd 0 sched') st) in
    (Resolved summary, Some st').

(* ------------------------------------------------------------------ *)
(** ** Definitions used to state the properties *)

(** The chunk the ['line'] handler writes for a line. *)
Definition out_chunk (line : jsstring) : jsstring :=
  match transform line with
  | Normal text => text
  | Throw _ _ => line ++ [LF]
  end.

(** Does the handler end in its [catch] clause? *)
Definition fails (line : jsstring) : bool :=
  match transform line with Normal _ => false | Throw _ _ => true end.

(** The Structural Rewriter as the specification words it: at an object,
    a matching node gets its [data] replaced by the digest, then every
    field is rewritten; an array is rewritten element by element; nothing
    else changes. *)
Fixpoint spec_rewrite (v : value) : value :=
  match v with
  | JArray items => JArray (map spec_rewrite items)
  | JObject props =>
      JObject (map (fun kv =>
                      match base64_data props, eqb (fst kv) (str "data") with
                      | Some d, true => (fst kv, JString (hashData d))
                      | _, _ => (fst kv, spec_rewrite (snd kv))
                      end) props)
  | _ => v
  end.

(** No object of the value has an own property named [hasOwnProperty]. *)
Fixpoint no_shadow (v : value) : bool :=
  match v with
  | JArray items => forallb no_shadow items
  | JObject props =>
      negb (hasOwn (str "hasOwnProperty") props)
      && forallb (fun kv => no_shadow (snd kv)) props
  | _ => true
  end.

(** [frame v v']: [v'] has the shape of [v], with the same keys in the
    same places and the same scalars, except that the [data] field of an
    object that passes the test of line 31 may hold the digest of its
    former value. *)
#[local] Unset Elimination Schemes.
Inductive frame : value -> value -> Prop :=
| frame_null : frame JNull JNull
| frame_bool b : frame (JBool b) (JBool b)
| frame_number x : frame (JNumber x) (JNumber x)
| frame_string s : frame (JString s) (JString s)
| frame_array items items' :
    Forall2 frame items items' -> frame (JArray items) (JArray items')
| frame_object props props' :
    Forall2 (fun kv kv' =>
               fst kv' = fst kv /\
               (frame (snd kv) (snd kv') \/
                (fst kv = str "data" /\
                 exists d, base64_data props = Some d /\
                           snd kv' = JString (hashData d))))
            props props' ->
    frame (JObject props) (JObject props').
#[local] Set Elimination Schemes.

Definition is_lower_hex (c : N) : bool :=
  ((48 <=? c) && (c <=? 57) || (97 <=? c) && (c <=? 102))%N.

(** What hashing the decoded payload would be: [Buffer.from(s, 'base64')]
    (only used to tell it apart from what [hashData] does). *)
Module Base64.
Local Open Scope N_scope.

Definition sextet (c : N) : option N :=
  if (65 <=? c) && (c <=? 90) then Some (c - 65)
  else if (97 <=? c) && (c <=? 122) then Some (c - 71)
  else if (48 <=? c) && (c <=? 57) then Some (c + 4)
  else if (c =? 43) || (c =? 45) then Some 62
  else if (c =? 47) || (c =? 95) then Some 63
  else None.

(** [acc] holds the [nbits] bits not yet emitted. *)
Fixpoint decode_from (acc nbits : N) (s : jsstring) : list N :=
  match s with
  | [] => []
  | c :: rest =>
      if c =? 61 then []
      else match sextet c with
           | None => decode_from acc nbits rest
           | Some v =>
               let acc' := acc * 64 + v in
               if 2 <=? nbits
               then N.shiftr acc' (nbits - 2)
                    :: decode_from (acc' mod 2 ^ (nbits - 2)) (nbits - 2) rest
               else decode_from acc' (nbits + 6) rest
           end
  end.

Definition decode (s : jsstring) : list N := decode_from 0 0 s.

End Base64.

Definition hash_of_decoded (data : jsstring) : jsstring :=
  Crypto.hex (Sha256.sha256 (Base64.decode data)).

(** The string a value is, if it is one; the string a property holds. *)
Definition as_string (v : value) : option jsstring :=
  match v with JString s => Some s | _ => None end.

Definition string_at (key : jsstring) (props : list (jsstring * value))
  : option jsstring :=
  match Get key props with Some v => as_string v | None => None end.

(** Lines 31-34 on their own: the object after the assignment. *)
Definition assign_data (props : list (jsstring * value)) : list (jsstring * value) :=
  match base64_data props with
  | Some d => Set_ (str "data") (JString (hashData d)) props
  | None => props
  end.

(* ------------------------------------------------------------------ *)
(** ** Induction on values *)

Section ValueInd.
Variable P : value -> Prop.
Hypothesis Hnull : P JNull.
Hypothesis Hbool : forall b, P (JBool b).
Hypothesis Hnumber : forall x, P (JNumber x).
Hypothesis Hstring : forall s, P (JString s).
Hypothesis Harray : forall items, Forall P items -> P (JArray items).
Hypothesis Hobject :
  forall props, Forall (fun kv => P (snd kv)) props -> P (JObject props).

Fixpoint value_ind (v : value) : P v :=
  match v with
  | JNull => Hnull
  | JBool b => Hbool b
  | JNumber x => Hnumber x
  | JString s => Hstring s
  | JArray items =>
      Harray ((fix all (l : list value) : Forall P l :=
                 match l with
                 | [] => Forall_nil P
                 | x :: r => Forall_cons x (value_ind x) (all r)
                 end) items)
  | JObject props =>
      Hobject ((fix all (l : list (jsstring * value))
                  : Forall (fun kv => P (snd kv)) l :=
                  match l with
                  | [] => Forall_nil _
                  | kv :: r => Forall_cons kv (value_ind (snd kv)) (all r)
                  end) props)
  end.
End ValueInd.

(** A string without line feed. *)
Definition no_lf (s : jsstring) : Prop := Forall (fun c => c <> LF) s.

(** The lines of an input that end in the [catch] clause. *)
Definition failures (lines : list jsstring) : nat := length (filter fails lines).

(** The name the specification asks for: the base name with its trailing
    [.jsonl] replaced by [.hashed.jsonl]. *)
Definition spec_outputFilename (inputPath : jsstring) : jsstring :=
  let name := Path.basename inputPath in
  let stem := firstn (length name - 6) name in
  if eqb (skipn (length name - 6) name) (str ".jsonl")
  then stem ++ str ".hashed.jsonl" else name.


(* ------------------------------------------------------------------ *)
(** ** Well-formed objects *)

Fixpoint nodupb (keys : list jsstring) : bool :=
  match keys with
  | [] => true
  | k :: rest => negb (existsb (eqb k) rest) && nodupb rest
  end.

(** The keys of every object of the value are distinct, as they are in
    any ECMAScript object. *)
Fixpoint distinct_keys (v : value) : bool :=
  match v with
  | JArray items => forallb distinct_keys items
  | JObject props =>
      nodupb (map fst props) && forallb (fun kv => distinct_keys (snd kv)) props
  | _ => true
  end.

Definition props_ok (props : list (jsstring * value)) : Prop :=
  NoDup (map fst props) /\ Forall (fun kv => distinct_keys (snd kv) = true) props.

(* ------------------------------------------------------------------ *)
(** ** Sample inputs *)

Module Sample.

(** A JSON text written with an apostrophe for each quotation mark. *)
Definition json (s : string) : jsstring :=
  map (fun c => if (c =? 39)%N then 34%N else c) (str s).

Definition fs : FileSystem :=
  {| input_exists := true; input_size := 300; dir_exists := true |}.

Definition x_times (n : nat) : jsstring := repeat 120%N n.

Definition marker (n : nat) : value :=
  JObject [(str "type", JString (str "base64")); (str "data", JString (x_times n))].

(** [{ type: 'base64', data: 'xxx...' }] with [n] characters of data. *)
Definition marker_line (n : nat) : jsstring :=
  json "{'type':'base64','data':'" ++ x_times n ++ json "'}".

Definition other_line : jsstring :=
  json "{'type':'other','data':'" ++ x_times 120 ++ json "'}".

Definition bad_line : jsstring := json "{'foo': }".

Definition spaced_line : jsstring := json "{'a': 1}".

(** A payload after an object that has a key named [hasOwnProperty]. *)
Definition shadowed : value :=
  JArray [JObject [(str "hasOwnProperty", JBool true)]; marker 101].

Definition shadowed_line : jsstring :=
  json "[{'hasOwnProperty':true}," ++ marker_line 101 ++ json "]".

End Sample.

(* ------------------------------------------------------------------ *)
(** ** Further definitions: the rest of the script *)

(** Some object of the value passes the test of line 31. *)
Fixpoint has_marker (v : value) : bool :=
  match v with
  | JArray items => existsb has_marker items
  | JObject props =>
      (match base64_data props with Some _ => true | None => false end)
      || existsb (fun kv => has_marker (snd kv)) props
  | _ => false
  end.

(** [s.includes(pat)]. *)
Fixpoint occurs (pat s : jsstring) : bool :=
  starts_with pat s
  || match s with
     | [] => false
     | _ :: rest => occurs pat rest
     end.









(** What the ['line'] handler prints for the line numbered [n]. *)
Definition line_events (n : nat) (line : jsstring) : list console_event :=
  match transform line with
  | Normal _ => if Nat.eqb (n mod 100) 0 then [Progress n] else []
  | Throw e _ => [ErrorParsingLine n e]
  end.

(** The writer completes nothing while the lines come in and everything
    before the reader closes. *)
Definition caught_up (lines : list jsstring) : list nat :=
  repeat 0 (length lines) ++ [length lines].


Module Cases.



(** A record with a payload inside an array inside an object. *)
Definition nested : value :=
  JObject [(str "message",
            JObject [(str "content",
                      JArray [JObject [(str "type", JString (str "text"));
                                       (str "text", JString (str "hi"))];
                              JObject [(str "type", JString (str "image"));
                                       (str "source", Sample.marker 150)]])])].

Definition plain : value :=
  JObject [(str "type", JString (str "base64"));
           (str "data", JString (Sample.x_times 100));
           (str "list", JArray [JNull; JBool true])].

End Cases.

(* ================================================================== *)
(** * Properties *)

(** ** Strings *)

Lemma eqb_eq (a b : jsstring) : eqb a b = true <-> a = b.
Proof.
  unfold eqb. destruct (list_eq_dec N.eq_dec a b); split; congruence.
Qed.

Lemma eqb_refl (a : jsstring) : eqb a a = true.
Proof. now apply eqb_eq. Qed.

Lemma eqb_neq (a b : jsstring) : eqb a b = false <-> a <> b.
Proof.
  unfold eqb. destruct (list_eq_dec N.eq_dec a b); split; congruence.
Qed.

Lemma count_app c (a b : jsstring) : count c (a ++ b) = count c a + count c b.
Proof. unfold count. now rewrite filter_app, length_app. Qed.

Lemma count_concat c (l : list jsstring) :
  count c (concat l) = list_sum (map (count c) l).
Proof.
  induction l as [|x l IH]; simpl; [reflexivity|].
  now rewrite count_app, IH.
Qed.

Lemma count_cons c d (s : jsstring) :
  count c (d :: s) = (if N.eqb c d then 1 else 0) + count c s.
Proof. unfold count. simpl. now destruct (N.eqb c d). Qed.

Lemma count_zero_Forall c (s : jsstring) :
  count c s = 0 <-> Forall (fun d => d <> c) s.
Proof.
  induction s as [|d s IH]; [split; [constructor | reflexivity]|].
  rewrite count_cons. split.
  - destruct (N.eqb_spec c d); [discriminate|]. intros H. constructor; [congruence|].
    now apply IH.
  - intros H. inversion H as [|? ? Hd Hs]; subst.
    destruct (N.eqb_spec c d); [congruence|]. now apply IH.
Qed.

(** ** The digest (claim C5) *)

Lemma length_bytes_of_word n x : length (Sha256.bytes_of_word n x) = n.
Proof. unfold Sha256.bytes_of_word. now rewrite length_map, length_rev, length_seq. Qed.

Lemma length_sha256 msg : length (Sha256.sha256 msg) = 32.
Proof.
  unfold Sha256.sha256, Sha256.digest_words. cbn [flat_map].
  rewrite !length_app, !length_bytes_of_word. reflexivity.
Qed.

Lemma length_hex bytes : length (Crypto.hex bytes) = 2 * length bytes.
Proof.
  unfold Crypto.hex. induction bytes as [|b l IH]; [reflexivity|].
  cbn [flat_map app length]. rewrite IH. lia.
Qed.

Lemma hex_digit_lower (n : N) : (n < 16)%N -> is_lower_hex (Crypto.hex_digit n) = true.
Proof.
  intros H. unfold Crypto.hex_digit, is_lower_hex.
  destruct (N.ltb_spec n 10).
  - replace ((48 <=? 48 + n)%N) with true by (symmetry; apply N.leb_le; lia).
    replace ((48 + n <=? 57)%N) with true by (symmetry; apply N.leb_le; lia).
    reflexivity.
  - replace ((97 <=? 87 + n)%N) with true by (symmetry; apply N.leb_le; lia).
    replace ((87 + n <=? 102)%N) with true by (symmetry; apply N.leb_le; lia).
    now rewrite orb_true_r.
Qed.

Lemma hex_lower bytes : Forall (fun c => is_lower_hex c = true) (Crypto.hex bytes).
Proof.
  unfold Crypto.hex. induction bytes as [|b l IH]; simpl; [constructor|].
  constructor; [|constructor; [|exact IH]];
    apply hex_digit_lower; apply N.mod_lt; discriminate.
Qed.

Lemma length_hashData data : length (hashData data) = 64.
Proof.
  unfold hashData, Crypto.digest_hex. now rewrite length_hex, length_sha256.
Qed.

Lemma utf8_ascii_unit (c : N) :
  (c < 128)%N ->
  is_high_surrogate c = false /\ is_low_surrogate c = false
  /\ utf8_of_code_point c = [c].
Proof.
  intros H. unfold is_high_surrogate, is_low_surrogate, utf8_of_code_point.
  destruct (N.leb_spec 0xD800 c); [lia|].
  destruct (N.leb_spec 0xDC00 c); [lia|].
  destruct (N.ltb_spec c 0x80); [|lia].
  auto.
Qed.

Lemma utf8_ascii (s : jsstring) :
  Forall (fun c => (c < 128)%N) s -> utf8_encode s = s.
Proof.
  induction 1 as [|c s Hc Hs IH]; [reflexivity|].
  cbn [utf8_encode].
  destruct (utf8_ascii_unit Hc) as (-> & -> & ->).
  rewrite IH. reflexivity.
Qed.

(** C5.  For every string, [hashData] returns 64 lowercase hexadecimal
    characters; the result is a function of the string alone, the hex form
    of the SHA-256 digest of the string's own UTF-8 bytes (a fresh Hash
    object is used by each call, so nothing carries over from one call to
    the next); for a string of base64 characters these bytes are the
    characters themselves, and the digest is not that of the bytes the
    base64 text decodes to. *)
Theorem hashData_digest :
  (forall data,
      length (hashData data) = 64
      /\ Forall (fun c => is_lower_hex c = true) (hashData data)
      /\ hashData data = Crypto.hex (Sha256.sha256 (utf8_encode data)))
  /\ (forall data h, Crypto.absorbed (Crypto.update (Crypto.createHash h) data)
                     = utf8_encode data)
  /\ utf8_encode (str "QUJD") = str "QUJD"
  /\ Base64.decode (str "QUJD") = str "ABC"
  /\ hashData (str "QUJD") <> hash_of_decoded (str "QUJD").
Proof.
  split; [|split; [|split; [|split]]].
  - intros data. split; [apply length_hashData|]. split; [apply hex_lower|reflexivity].
  - reflexivity.
  - reflexivity.
  - reflexivity.
  - vm_compute. discriminate.
Qed.

(** ** Loops *)

Section EachFacts.
Context {A : Type}.
Variables (cur : A -> A) (body : A -> Completion A).

Lemma each_related (R : A -> A -> Prop) (l : list A) :
  (forall x, In x l -> R x (cur x)) ->
  (forall x, In x l -> R x (state_of (body x))) ->
  Forall2 R l (state_of (each cur body l)).
Proof.
  induction l as [|x rest IH]; intros Hcur Hbody; simpl; [constructor|].
  assert (Hx := Hbody x (or_introl eq_refl)).
  destruct (body x) as [x'|e x']; simpl in Hx.
  - assert (Hrest : Forall2 R rest (state_of (each cur body rest))).
    { apply IH; intros y Hy; [apply Hcur | apply Hbody]; now right. }
    destruct (each cur body rest); simpl in *; now constructor.
  - simpl. constructor; [exact Hx|].
    clear - Hcur. induction rest as [|y rest IH]; simpl; constructor.
    + apply Hcur. right. now left.
    + apply IH. intros z [Hz|Hz]; apply Hcur; [now left | right; now right].
Qed.

Lemma each_normal (f : A -> A) (l : list A) :
  (forall x, In x l -> body x = Normal (f x)) ->
  each cur body l = Normal (map f l).
Proof.
  induction l as [|x rest IH]; intros H; simpl; [reflexivity|].
  rewrite (H x (or_introl eq_refl)), IH; [reflexivity|].
  intros y Hy. apply H. now right.
Qed.

Lemma each_thrown (p : A -> bool) (e : error) (l : list A) :
  (forall x, In x l -> thrown (body x) = if p x then None else Some e) ->
  thrown (each cur body l) = if forallb p l then None else Some e.
Proof.
  induction l as [|x rest IH]; intros H; simpl; [reflexivity|].
  assert (Hx := H x (or_introl eq_refl)).
  assert (Hrest := IH (fun y Hy => H y (or_intror Hy))).
  destruct (body x) as [x'|e' x']; simpl in Hx; destruct (p x); try discriminate; simpl.
  - destruct (each cur body rest); simpl in *; exact Hrest.
  - exact Hx.
Qed.

Variables (cur2 : A -> A) (body2 : A -> Completion A).

Lemma each_again (l : list A) :
  (forall x, In x l -> cur2 (cur x) = cur x) ->
  (forall x, In x l -> body2 (state_of (body x)) = body x) ->
  each cur2 body2 (state_of (each cur body l)) = each cur body l.
Proof.
  induction l as [|x rest IH]; intros Hcur Hbody; simpl; [reflexivity|].
  assert (Hx := Hbody x (or_introl eq_refl)).
  assert (Hrest := IH (fun y Hy => Hcur y (or_intror Hy))
                      (fun y Hy => Hbody y (or_intror Hy))).
  destruct (body x) as [x'|e x']; simpl in Hx.
  - destruct (each cur body rest) as [rest'|e rest']; simpl in *;
      rewrite Hx, Hrest; reflexivity.
  - simpl. rewrite Hx. f_equal. f_equal.
    rewrite map_map. apply map_ext_in. intros y Hy. apply Hcur. now right.
Qed.
End EachFacts.

(** ** Own properties *)

Lemma base64_data_strings props :
  base64_data props =
  match string_at (str "type") props, string_at (str "data") props with
  | Some t, Some d =>
      if eqb t (str "base64") && (100 <? length d)%nat then Some d else None
  | _, _ => None
  end.
Proof.
  unfold base64_data, string_at.
  destruct (Get (str "type") props) as [[]|], (Get (str "data") props) as [[]|];
    reflexivity.
Qed.

Lemma Get_related (R : jsstring -> value -> value -> Prop) key props props' :
  Forall2 (fun kv kv' => fst kv' = fst kv /\ R (fst kv) (snd kv) (snd kv'))
          props props' ->
  match Get key props, Get key props' with
  | Some v, Some v' => R key v v'
  | None, None => True
  | _, _ => False
  end.
Proof.
  induction 1 as [|[k v] [k' v'] l l' [Hk HR] _ IH]; simpl; [exact I|].
  simpl in Hk, HR. subst k'.
  destruct (eqb k key) eqn:E; [|exact IH].
  apply eqb_eq in E. now subst.
Qed.

Lemma as_string_processObject v :
  as_string (state_of (processObject v)) = as_string v.
Proof.
  destruct v; try reflexivity; simpl.
  - now destruct (each _ _ items).
  - now destruct (each _ _ props).
Qed.

(** ** The rewriter *)

Lemma hasOwn_keys key props props' :
  map fst props' = map fst props -> hasOwn key props' = hasOwn key props.
Proof.
  unfold hasOwn. revert props'.
  induction props as [|[k v] l IH]; intros [|[k' v'] l'] H; try discriminate;
    [reflexivity|].
  simpl in *. injection H as Hk Hl. subst k'.
  destruct (eqb k key); [reflexivity|]. now apply IH.
Qed.

Lemma hasOwn_Set_ key k v props : hasOwn key (Set_ k v props) = hasOwn key props.
Proof.
  apply hasOwn_keys. unfold Set_. rewrite map_map. apply map_ext.
  intros [k' v']. simpl. now destruct (eqb k' k).
Qed.

Lemma keys_related (R : jsstring * value -> jsstring * value -> Prop) props props' :
  (forall kv kv', R kv kv' -> fst kv' = fst kv) ->
  Forall2 R props props' -> map fst props' = map fst props.
Proof.
  intros HR. induction 1 as [|kv kv' l l' H _ IH]; simpl; [reflexivity|].
  now rewrite (HR _ _ H), IH.
Qed.

Lemma each_map {A} (cur : A -> A) (body body' : A -> Completion A) (l : list A) :
  (forall x, In x l -> body' (cur x) = body x) ->
  each (fun x => x) body' (map cur l) = each cur body l.
Proof.
  induction l as [|x rest IH]; intros H; simpl; [reflexivity|].
  rewrite (H x (or_introl eq_refl)), IH by (intros y Hy; apply H; now right).
  now rewrite map_id.
Qed.

(** [processObject] on an object, in the order of the source: the
    assignment of lines 31-34, then the loop of lines 37-41 over the
    object as it then is. *)
Lemma processObject_object props :
  processObject (JObject props) =
  let props1 := assign_data props in
  lift JObject
       (each (fun kv => kv)
             (fun kv => if hasOwn (str "hasOwnProperty") props1
                        then Throw TypeError kv
                        else lift (pair (fst kv)) (processObject (snd kv)))
             props1).
Proof.
  cbn [processObject]. unfold assign_data.
  destruct (base64_data props) as [d|]; cbn [option_map].
  - rewrite hasOwn_Set_. unfold Set_. f_equal. symmetry.
    apply each_map. intros [k v] _. simpl.
    destruct (hasOwn _ props); [reflexivity|].
    destruct (eqb k (str "data")); reflexivity.
  - reflexivity.
Qed.

Lemma processObject_array items :
  processObject (JArray items) =
  lift JArray (each (fun item => item) processObject items).
Proof. reflexivity. Qed.

(** Where nothing shadows [hasOwnProperty], the rewriter ends normally
    and does what the specification says. *)
Lemma processObject_spec_rewrite v :
  no_shadow v = true -> processObject v = Normal (spec_rewrite v).
Proof.
  induction v as [| | | |items IH|props IH] using value_ind; try reflexivity.
  - intros H. cbn [no_shadow] in H. rewrite forallb_forall in H.
    cbn [processObject spec_rewrite].
    rewrite each_normal with (f := spec_rewrite); [reflexivity|].
    intros x Hx. rewrite Forall_forall in IH. apply IH; auto.
  - intros H. cbn [no_shadow] in H. apply andb_true_iff in H as [Hown Hall].
    apply negb_true_iff in Hown. rewrite forallb_forall in Hall.
    rewrite Forall_forall in IH.
    cbn [processObject spec_rewrite]. rewrite Hown.
    erewrite each_normal; [reflexivity|].
    intros kv Hkv. cbv beta.
    destruct (base64_data props) as [d|]; cbn [option_map].
    + destruct (eqb (fst kv) (str "data")); [reflexivity|].
      rewrite (IH kv Hkv (Hall kv Hkv)). reflexivity.
    + rewrite (IH kv Hkv (Hall kv Hkv)). reflexivity.
Qed.


(** ** The frame of the rewriter (claim C4) *)

Lemma Forall2_diag {A} (R : A -> A -> Prop) (l : list A) :
  Forall (fun x => R x x) l -> Forall2 R l l.
Proof. induction 1; constructor; assumption. Qed.

Lemma frame_refl v : frame v v.
Proof.
  induction v as [| | | |items IH|props IH] using value_ind; try constructor.
  - now apply Forall2_diag.
  - apply Forall2_diag. eapply Forall_impl; [|exact IH].
    intros kv H. split; [reflexivity | now left].
Qed.

Lemma frame_array_inv items v' :
  frame (JArray items) v' ->
  exists items', v' = JArray items' /\ length items' = length items
                 /\ Forall2 frame items items'.
Proof.
  inversion 1 as [| | | |? items' H'|]; subst. exists items'.
  split; [reflexivity|]. split; [|exact H'].
  symmetry. eapply Forall2_length; eassumption.
Qed.

Lemma frame_object_inv props v' :
  frame (JObject props) v' ->
  exists props', v' = JObject props' /\ map fst props' = map fst props.
Proof.
  inversion 1 as [| | | | |? props' H']; subst. exists props'.
  split; [reflexivity|].
  eapply keys_related; [|exact H']. now intros kv kv' [Hk _].
Qed.

Lemma frame_scalar_inv v v' :
  frame v v' ->
  match v with JArray _ | JObject _ => True | _ => v' = v end.
Proof. inversion 1; subst; auto. Qed.

Lemma processObject_frame_rel : forall v, frame v (state_of (processObject v)).
Proof.
  induction v as [| | | |items IH|props IH] using value_ind; try constructor.
  - rewrite Forall_forall in IH. cbn [processObject].
    match goal with |- frame _ (state_of (lift _ ?c)) =>
      replace (state_of (lift JArray c)) with (JArray (state_of c))
        by now destruct c end.
    constructor. apply each_related; intros x Hx; [apply frame_refl | now apply IH].
  - rewrite Forall_forall in IH. cbn [processObject].
    match goal with |- frame _ (state_of (lift _ ?c)) =>
      replace (state_of (lift JObject c)) with (JObject (state_of c))
        by now destruct c end.
    constructor.
    assert (Hcur : forall kv : jsstring * value,
               let kv' := match option_map hashData (base64_data props) with
                          | Some h => if eqb (fst kv) (str "data")
                                      then (fst kv, JString h) else kv
                          | None => kv
                          end in
               fst kv' = fst kv /\
               (frame (snd kv) (snd kv') \/
                (fst kv = str "data" /\
                 exists d, base64_data props = Some d /\
                           snd kv' = JString (hashData d)))).
    { intros kv. destruct (base64_data props) as [d|]; cbn [option_map].
      - destruct (eqb (fst kv) (str "data")) eqn:E; cbv zeta; simpl.
        + split; [reflexivity|]. right. apply eqb_eq in E. eauto.
        + split; [reflexivity|]. left. apply frame_refl.
      - cbv zeta. split; [reflexivity|]. left. apply frame_refl. }
    apply each_related; intros kv Hkv; [apply Hcur|].
    destruct (hasOwn (str "hasOwnProperty") props); [apply Hcur|].
    generalize (Hcur kv). cbv zeta.
    destruct (option_map hashData (base64_data props)) as [h|].
    + destruct (eqb (fst kv) (str "data")); [auto|]. intros _.
      specialize (IH kv Hkv). destruct (processObject (snd kv)); simpl in *; auto.
    + intros _.
      specialize (IH kv Hkv). destruct (processObject (snd kv)); simpl in *; auto.
Qed.

(** ** Idempotence (claim C6) *)

Lemma state_props props :
  let hashed := option_map hashData (base64_data props) in
  exists props',
    state_of (processObject (JObject props)) = JObject props' /\
    Forall2 (fun kv kv' =>
               fst kv' = fst kv /\
               match hashed with
               | Some h => if eqb (fst kv) (str "data") then snd kv' = JString h
                           else as_string (snd kv') = as_string (snd kv)
               | None => as_string (snd kv') = as_string (snd kv)
               end) props props'.
Proof.
  intros hashed. cbn [processObject]. fold hashed.
  match goal with |- context [lift JObject ?c] =>
    exists (state_of c); split; [now destruct c|] end.
  assert (Hcur : forall kv : jsstring * value,
             let kv' := match hashed with
                        | Some h => if eqb (fst kv) (str "data")
                                    then (fst kv, JString h) else kv
                        | None => kv
                        end in
             fst kv' = fst kv /\
             match hashed with
             | Some h => if eqb (fst kv) (str "data") then snd kv' = JString h
                         else as_string (snd kv') = as_string (snd kv)
             | None => as_string (snd kv') = as_string (snd kv)
             end).
  { intros kv. destruct hashed as [h|]; [|now split].
    destruct (eqb (fst kv) (str "data")); now split. }
  apply each_related; intros kv Hkv; [apply Hcur|].
  destruct (hasOwn (str "hasOwnProperty") props); [apply Hcur|].
  generalize (Hcur kv). cbv zeta.
  destruct hashed as [h|].
  - destruct (eqb (fst kv) (str "data")); [auto|]. intros _.
    generalize (as_string_processObject (snd kv)).
    destruct (processObject (snd kv)); simpl; auto.
  - intros _. generalize (as_string_processObject (snd kv)).
    destruct (processObject (snd kv)); simpl; auto.
Qed.

(** After one pass no object passes the test of line 31 any more: a
    digest has 64 characters. *)
Lemma base64_data_after props props' :
  state_of (processObject (JObject props)) = JObject props' ->
  base64_data props' = None /\ map fst props' = map fst props.
Proof.
  intros Hst. destruct (state_props props) as (ps & Hps & Hrel).
  rewrite Hst in Hps. injection Hps as <-.
  split; [|eapply keys_related; [|exact Hrel]; now intros ? ? [? _]].
  set (R := fun (k : jsstring) (v v' : value) =>
              match option_map hashData (base64_data props) with
              | Some h => if eqb k (str "data") then v' = JString h
                          else as_string v' = as_string v
              | None => as_string v' = as_string v
              end).
  assert (Hty := Get_related R (str "type") Hrel).
  assert (Hda := Get_related R (str "data") Hrel).
  unfold R in Hty, Hda.
  rewrite base64_data_strings. unfold string_at.
  destruct (base64_data props) as [d|] eqn:Hb; cbn [option_map] in *.
  - rewrite base64_data_strings in Hb. unfold string_at in Hb.
    change (eqb (str "data") (str "data")) with true in Hda.
    destruct (Get (str "data") props) as [v|];
      [|destruct (Get (str "type") props) as [[]|]; discriminate].
    destruct (Get (str "data") props') as [v'|]; [|contradiction].
    subst v'. cbn [as_string].
    rewrite length_hashData.
    destruct (Get (str "type") props') as [w|]; [|reflexivity].
    destruct (as_string w); [|reflexivity].
    now rewrite andb_false_r.
  - change (eqb (str "type") (str "data")) with false in Hty.
    rewrite base64_data_strings in Hb. unfold string_at in Hb.
    destruct (Get (str "type") props) as [v|], (Get (str "type") props') as [v'|];
      try contradiction;
      destruct (Get (str "data") props) as [w|], (Get (str "data") props') as [w'|];
      try contradiction; try rewrite Hty; try rewrite Hda; try exact Hb;
      try reflexivity.
Qed.

Lemma base64_data_inv props d :
  base64_data props = Some d ->
  Get (str "type") props = Some (JString (str "base64"))
  /\ Get (str "data") props = Some (JString d)
  /\ 100 < length d.
Proof.
  unfold base64_data. intros H.
  destruct (Get (str "type") props) as [[| | |t| |]|]; try discriminate.
  destruct (Get (str "data") props) as [[| | |d'| |]|]; try discriminate.
  destruct (eqb t (str "base64")) eqn:Et; [|discriminate].
  destruct (100 <? length d') eqn:El; [|discriminate].
  injection H as <-. apply eqb_eq in Et. apply Nat.ltb_lt in El. now subst.
Qed.

(** C4.  Whatever the value, and whether the call returns or throws, the
    object graph [processObject] leaves behind differs from the one it was
    given only in [data] fields of objects that pass the test of line 31,
    which hold the digest of their former string: every key is where it
    was, every array has the elements it had, in their order, and every
    other scalar, the [type] of a matching object included, is the same. *)
Theorem processObject_frame :
  (forall v, frame v (state_of (processObject v)))
  /\ (forall items, exists items',
         state_of (processObject (JArray items)) = JArray items'
         /\ length items' = length items)
  /\ (forall props, exists props',
         state_of (processObject (JObject props)) = JObject props'
         /\ map fst props' = map fst props
         /\ forall d, base64_data props = Some d ->
                      Get (str "type") props' = Some (JString (str "base64"))
                      /\ Get (str "data") props' = Some (JString (hashData d))).
Proof.
  split; [exact processObject_frame_rel|]. split.
  - intros items.
    destruct (frame_array_inv (processObject_frame_rel (JArray items)))
      as (items' & H & Hlen & _).
    exists items'. auto.
  - intros props. destruct (state_props props) as (props' & Hst & Hrel).
    exists props'. split; [exact Hst|].
    split; [eapply keys_related; [|exact Hrel]; now intros ? ? [? _]|].
    intros d Hd. destruct (base64_data_inv props Hd) as (Hty & Hda & _).
    set (R := fun (k : jsstring) (v v' : value) =>
                match option_map hashData (base64_data props) with
                | Some h => if eqb k (str "data") then v' = JString h
                            else as_string v' = as_string v
                | None => as_string v' = as_string v
                end).
    assert (Gty := Get_related R (str "type") Hrel).
    assert (Gda := Get_related R (str "data") Hrel).
    unfold R in Gty, Gda. rewrite Hd in Gty, Gda. cbn [option_map] in Gty, Gda.
    rewrite Hty in Gty. rewrite Hda in Gda.
    change (eqb (str "type") (str "data")) with false in Gty.
    change (eqb (str "data") (str "data")) with true in Gda.
    destruct (Get (str "type") props') as [w|]; [|contradiction].
    destruct (Get (str "data") props') as [w'|]; [|contradiction].
    subst w'. split; [|reflexivity].
    destruct w; try discriminate. simpl in Gty. congruence.
Qed.

Lemma processObject_again :
  forall v, processObject (state_of (processObject v)) = processObject v.
Proof.
  induction v as [| | | |items IH|props IH] using value_ind; try reflexivity.
  - rewrite Forall_forall in IH. cbn [processObject].
    match goal with |- processObject (state_of (lift _ ?c)) = _ =>
      replace (state_of (lift JArray c)) with (JArray (state_of c))
        by now destruct c end.
    cbn [processObject]. f_equal. apply each_again; auto.
  - rewrite Forall_forall in IH.
    destruct (state_of (processObject (JObject props))) as [| | | | |props'] eqn:Hst;
      try (exfalso; cbn [processObject] in Hst;
           match type of Hst with state_of (lift _ ?c) = _ => destruct c end;
           discriminate).
    destruct (base64_data_after props Hst) as [Hnone Hkeys].
    cbn [processObject] in Hst.
    match type of Hst with state_of (lift _ ?c) = _ =>
      assert (Hps : props' = state_of c) by (destruct c; simpl in *; congruence) end.
    cbn [processObject]. rewrite Hnone. cbn [option_map].
    rewrite (hasOwn_keys _ _ _ Hkeys). f_equal.
    rewrite Hps. apply each_again.
    + intros kv _. reflexivity.
    + intros kv Hkv.
      destruct (hasOwn (str "hasOwnProperty") props); [reflexivity|].
      destruct (option_map hashData (base64_data props)) as [h|].
      * destruct (eqb (fst kv) (str "data")); [reflexivity|].
        specialize (IH kv Hkv).
        destruct (processObject (snd kv)) as [st|e st]; simpl in IH |- *;
          rewrite IH; reflexivity.
      * specialize (IH kv Hkv).
        destruct (processObject (snd kv)) as [st|e st]; simpl in IH |- *;
          rewrite IH; reflexivity.
Qed.

(** C6.  A second pass changes nothing: run on the object graph the
    first pass left, [processObject] ends the way the first pass did and
    leaves every field as it found it.  A hashed [data] field is a
    64-character string, below the threshold of line 31, and the first
    pass left all other fields as they were. *)
Theorem processObject_idempotent :
  forall v,
    let v' := state_of (processObject v) in
    processObject v' = processObject v
    /\ state_of (processObject v') = v'
    /\ (forall props' d, v' = JObject props' -> base64_data props' = Some d -> False).
Proof.
  intros v v'. assert (H := processObject_again v). fold v' in H.
  split; [exact H|]. split; [now rewrite H|].
  intros props' d Hv' Hd. subst v'.
  destruct v as [| | | | |props]; try discriminate.
  - cbn [processObject] in Hv'.
    match type of Hv' with state_of (lift _ ?c) = _ => destruct c end; discriminate.
  - destruct (base64_data_after props Hv') as [Hnone _]. congruence.
Qed.

(** ** [JSON.parse] never runs out of fuel *)

Module JsonFacts.
Import Json.

Lemma skip_ws_length s : length (skip_ws s) <= length s.
Proof.
  induction s as [|c s IH]; simpl; [lia|].
  destruct (is_ws c); simpl; lia.
Qed.

Lemma parse_chars_length_le n :
  forall s cs r, length s <= n -> parse_chars s = Some (cs, r) ->
                 length r < length s.
Proof.
  induction n as [|n IH]; intros s cs r Hn H.
  - destruct s; [discriminate|simpl in Hn; lia].
  - destruct s as [|c rest]; [discriminate|]. simpl in Hn. cbn [parse_chars] in H.
    destruct (c =? 34)%N; [injection H as <- <-; simpl; lia|].
    destruct (c =? 92)%N.
    + destruct rest as [|e rest1]; [discriminate|].
      destruct (e =? 117)%N.
      * destruct rest1 as [|h1 [|h2 [|h3 [|h4 rest2]]]]; try discriminate.
        destruct (hex4 h1 h2 h3 h4); [|discriminate].
        destruct (parse_chars rest2) as [[cs' r']|] eqn:E; [|discriminate].
        injection H as <- <-. apply IH in E; simpl in *; lia.
      * destruct (simple_escape e); [|discriminate].
        destruct (parse_chars rest1) as [[cs' r']|] eqn:E; [|discriminate].
        injection H as <- <-. apply IH in E; simpl in *; lia.
    + destruct (c <? 32)%N; [discriminate|].
      destruct (parse_chars rest) as [[cs' r']|] eqn:E; [|discriminate].
      injection H as <- <-. apply IH in E; simpl in *; lia.
Qed.

Lemma parse_chars_length s cs r :
  parse_chars s = Some (cs, r) -> length r < length s.
Proof. apply parse_chars_length_le with (n := length s). lia. Qed.

Lemma expect_length lit : forall s r, expect lit s = Some r -> length r <= length s.
Proof.
  induction lit as [|a lit IH]; intros s r H; simpl in H.
  - injection H as <-. lia.
  - destruct s as [|b s]; [discriminate|].
    destruct (a =? b)%N; [|discriminate]. apply IH in H. simpl. lia.
Qed.

Lemma span_digits_length s ds r :
  span_digits s = (ds, r) -> length s = length ds + length r.
Proof.
  revert ds r. induction s as [|c s IH]; intros ds r H; simpl in H.
  - injection H as <- <-. reflexivity.
  - destruct (is_digit c).
    + destruct (span_digits s) as [ds' r'] eqn:E. injection H as <- <-.
      simpl. rewrite (IH _ _ eq_refl). lia.
    + injection H as <- <-. reflexivity.
Qed.

Lemma parse_number_length s x r :
  parse_number s = Some (x, r) -> length r < length s.
Proof.
  unfold parse_number. intros H.
  set (p := match s with
            | c :: r0 => if (c =? 45)%N then (true, r0) else (false, s)
            | [] => (false, s)
            end) in H.
  assert (Hp : length (snd p) <= length s).
  { subst p. destruct s as [|c r0]; [simpl; lia|].
    destruct (c =? 45)%N; simpl; lia. }
  destruct p as [neg s1]. simpl in Hp.
  destruct (span_digits s1) as [int s2] eqn:E1. apply span_digits_length in E1.
  destruct int as [|d more]; [discriminate|]. simpl in E1.
  destruct ((d =? 48)%N && negb (length more =? 0)); [discriminate|].
  match type of H with match ?f with _ => _ end = _ =>
    destruct f as [[frac s3]|] eqn:Ef; [|discriminate] end.
  assert (H3 : length s3 <= length s2).
  { destruct s2 as [|c r0]; [injection Ef as <- <-; lia|].
    destruct (c =? 46)%N; [|injection Ef as <- <-; lia].
    destruct (span_digits r0) as [fr r'] eqn:E2. apply span_digits_length in E2.
    destruct fr; [discriminate|]. injection Ef as <- <-. simpl in *. lia. }
  match type of H with match ?f with _ => _ end = _ =>
    destruct f as [[e s4]|] eqn:Ee; [|discriminate] end.
  assert (H4 : length s4 <= length s3).
  { destruct s3 as [|c r0]; [injection Ee as <- <-; lia|].
    destruct ((c =? 101)%N || (c =? 69)%N); [|injection Ee as <- <-; lia].
    set (q := match r0 with
              | sg :: r' => if (sg =? 45)%N then (true, r')
                            else if (sg =? 43)%N then (false, r') else (false, r0)
              | [] => (false, r0)
              end) in Ee.
    assert (Hq : length (snd q) <= length r0).
    { subst q. destruct r0 as [|sg r']; [simpl; lia|].
      destruct (sg =? 45)%N; [simpl; lia|]. destruct (sg =? 43)%N; simpl; lia. }
    destruct q as [eneg r1]. simpl in Hq.
    destruct (span_digits r1) as [ex r2] eqn:E3. apply span_digits_length in E3.
    destruct ex; [discriminate|]. injection Ee as <- <-. simpl in *. lia. }
  injection H as <- <-. lia.
Qed.

Lemma fuel_enough : forall f,
    (forall s, 2 * length s + 1 <= f ->
               parse_value f s <> PFuel /\
               forall v r, parse_value f s = POk v r -> length r < length s)
    /\ (forall acc s, 2 * length s + 2 <= f ->
                      parse_elements f acc s <> PFuel /\
                      forall v r, parse_elements f acc s = POk v r -> length r < length s)
    /\ (forall acc s, 2 * length s + 2 <= f ->
                      parse_members f acc s <> PFuel /\
                      forall v r, parse_members f acc s = POk v r -> length r < length s).
Proof.
  induction f as [|f (IHv & IHe & IHm)].
  - repeat split; intros; lia.
  - split; [|split].
    + intros s Hf. cbn [parse_value].
      assert (Hws := skip_ws_length s).
      destruct (skip_ws s) as [|c rest] eqn:Es; [split; [discriminate|discriminate]|].
      simpl in Hws.
      assert (Hws' := skip_ws_length rest).
      destruct (c =? 123)%N.
      { destruct (skip_ws rest) as [|d rest'] eqn:Er; [split; discriminate|].
        simpl in Hws'.
        destruct (d =? 125)%N.
        - split; [discriminate|]. intros v r H. injection H as <- <-. lia.
        - destruct (IHm [] (d :: rest')) as [Hne Hlen]; [simpl; lia|].
          split; [exact Hne|]. intros v r H. apply Hlen in H. simpl in H. lia. }
      destruct (c =? 91)%N.
      { destruct (skip_ws rest) as [|d rest'] eqn:Er; [split; discriminate|].
        simpl in Hws'.
        destruct (d =? 93)%N.
        - split; [discriminate|]. intros v r H. injection H as <- <-. lia.
        - destruct (IHe [] (d :: rest')) as [Hne Hlen]; [simpl; lia|].
          split; [exact Hne|]. intros v r H. apply Hlen in H. simpl in H. lia. }
      destruct (c =? 34)%N.
      { destruct (parse_chars rest) as [[cs r0]|] eqn:E; [|split; discriminate].
        apply parse_chars_length in E.
        split; [discriminate|]. intros v r H. injection H as <- <-. lia. }
      destruct (c =? 116)%N.
      { destruct (expect (str "rue") rest) as [r0|] eqn:E; [|split; discriminate].
        apply expect_length in E.
        split; [discriminate|]. intros v r H. injection H as <- <-. lia. }
      destruct (c =? 102)%N.
      { destruct (expect (str "alse") rest) as [r0|] eqn:E; [|split; discriminate].
        apply expect_length in E.
        split; [discriminate|]. intros v r H. injection H as <- <-. lia. }
      destruct (c =? 110)%N.
      { destruct (expect (str "ull") rest) as [r0|] eqn:E; [|split; discriminate].
        apply expect_length in E.
        split; [discriminate|]. intros v r H. injection H as <- <-. lia. }
      destruct (parse_number (c :: rest)) as [[x r0]|] eqn:E; [|split; discriminate].
      apply parse_number_length in E. simpl in E.
      split; [discriminate|]. intros v r H. injection H as <- <-. lia.
    + intros acc s Hf. cbn [parse_elements].
      destruct (IHv s) as [Hne Hlen]; [lia|].
      destruct (parse_value f s) as [v rest| |] eqn:Ev;
        [|split; discriminate|contradiction].
      specialize (Hlen _ _ eq_refl).
      assert (Hws := skip_ws_length rest).
      destruct (skip_ws rest) as [|d rest'] eqn:Er; [split; discriminate|].
      simpl in Hws.
      destruct (d =? 44)%N.
      { destruct (IHe (acc ++ [v]) rest') as [Hne' Hlen']; [lia|].
        split; [exact Hne'|]. intros v' r H. apply Hlen' in H. lia. }
      destruct (d =? 93)%N; [|split; discriminate].
      split; [discriminate|]. intros v' r H. injection H as <- <-. lia.
    + intros acc s Hf. cbn [parse_members].
      assert (Hws := skip_ws_length s).
      destruct (skip_ws s) as [|q r0] eqn:Es; [split; discriminate|].
      simpl in Hws.
      destruct (q =? 34)%N; [|split; discriminate].
      destruct (parse_chars r0) as [[key r1]|] eqn:Ek; [|split; discriminate].
      apply parse_chars_length in Ek.
      assert (Hws1 := skip_ws_length r1).
      destruct (skip_ws r1) as [|col r2] eqn:E1; [split; discriminate|].
      simpl in Hws1.
      destruct (col =? 58)%N; [|split; discriminate].
      destruct (IHv r2) as [Hne Hlen]; [lia|].
      destruct (parse_value f r2) as [v rest| |] eqn:Ev;
        [|split; discriminate|contradiction].
      specialize (Hlen _ _ eq_refl).
      assert (Hws2 := skip_ws_length rest).
      destruct (skip_ws rest) as [|d rest'] eqn:Er; [split; discriminate|].
      simpl in Hws2.
      destruct (d =? 44)%N.
      { destruct (IHm (define_property key v acc) rest') as [Hne' Hlen']; [lia|].
        split; [exact Hne'|]. intros v' r H. apply Hlen' in H. lia. }
      destruct (d =? 125)%N; [|split; discriminate].
      split; [discriminate|]. intros v' r H. injection H as <- <-. lia.
Qed.

(** The fuel [parse] gives is enough: when [parse] returns [None] the
    text is not JSON. *)
Lemma parse_value_fuel text :
  parse_value (2 * length text + 1) text <> PFuel.
Proof. apply (fuel_enough (2 * length text + 1)). lia. Qed.

End JsonFacts.

(** ** [JSON.stringify] writes no line feed *)

Module StringifyFacts.
Import Json.

Lemma no_lf_app a b : no_lf a -> no_lf b -> no_lf (a ++ b).
Proof. intros. apply Forall_app. now split. Qed.

Lemma no_lf_firstn n s : no_lf s -> no_lf (firstn n s).
Proof.
  intros H. revert n. induction H as [|c s Hc Hs IH]; intros [|n]; simpl;
  constructor; [exact Hc | apply IH].
Qed.

Lemma no_lf_skipn n s : no_lf s -> no_lf (skipn n s).
Proof.
  intros H. revert n. induction H as [|c s Hc Hs IH]; intros [|n]; simpl;
  try apply IH; constructor; assumption.
Qed.

Lemma no_lf_repeat c n : c <> LF -> no_lf (repeat c n).
Proof. intros H. induction n; simpl; constructor; auto. Qed.

Lemma no_lf_uint d : no_lf (str (NilEmpty.string_of_uint d)).
Proof.
  induction d; simpl; try constructor; try discriminate; assumption.
Qed.

Lemma no_lf_digits n : no_lf (JsNumber.digits_of n).
Proof.
  unfold JsNumber.digits_of, NilZero.string_of_uint.
  destruct (N.to_uint (Z.to_N n)) eqn:E; try apply no_lf_uint.
  repeat constructor; discriminate.
Qed.

Ltac lf :=
  repeat first
    [ apply no_lf_app | apply no_lf_firstn | apply no_lf_skipn
    | apply no_lf_digits | apply no_lf_repeat
    | match goal with |- no_lf (if ?b then _ else _) => destruct b end
  | (repeat constructor; discriminate) ].

Lemma no_lf_positive x m e : no_lf (JsNumber.positive_to_string x m e).
Proof.
  unfold JsNumber.positive_to_string.
  destruct (JsNumber.shortest _ _ _ _ _ _) as [s n].
  repeat match goal with |- no_lf (if ?b then _ else _) => destruct b end; lf.
Qed.

Lemma no_lf_number x : no_lf (JsNumber.to_string x).
Proof.
  destruct x as [s|s| |s m e]; simpl; try (repeat constructor; discriminate).
  - destruct s; repeat constructor; discriminate.
  - apply no_lf_app; [destruct s; repeat constructor; discriminate|].
    apply no_lf_positive.
Qed.

Lemma hex_digit_not_lf n : Crypto.hex_digit n <> LF.
Proof.
  unfold Crypto.hex_digit, LF. destruct (N.ltb_spec n 10); lia.
Qed.

Lemma no_lf_unicode_escape c : no_lf (unicode_escape c).
Proof.
  unfold unicode_escape.
  repeat constructor; try apply hex_digit_not_lf; discriminate.
Qed.

Lemma no_lf_quote_chars_le n :
  forall s, length s <= n -> no_lf (quote_chars s).
Proof.
  induction n as [|n IH]; intros s Hn.
  - destruct s; [constructor|simpl in Hn; lia].
  - destruct s as [|c rest]; [constructor|]. simpl in Hn.
    assert (Hrest : no_lf (quote_chars rest)) by (apply IH; lia).
    cbn [quote_chars].
    repeat match goal with
           | |- no_lf (if (c =? ?k)%N then _ else _) =>
               destruct (N.eqb_spec c k);
               [apply no_lf_app; [repeat constructor; discriminate | exact Hrest]|]
           end.
    destruct (c <? 32)%N;
      [apply no_lf_app; [apply no_lf_unicode_escape | exact Hrest]|].
    destruct (is_high_surrogate c) eqn:Hh.
    + destruct rest as [|d rest']; [apply no_lf_unicode_escape|].
      destruct (is_low_surrogate d) eqn:Hl.
      * constructor; [assumption|]. constructor.
        -- unfold is_low_surrogate in Hl. apply andb_true_iff in Hl as [Hl _].
           apply N.leb_le in Hl. unfold LF. lia.
        -- apply IH. simpl in Hn. lia.
      * apply no_lf_app; [apply no_lf_unicode_escape | exact Hrest].
    + destruct (is_low_surrogate c);
        [apply no_lf_app; [apply no_lf_unicode_escape | exact Hrest]|].
      constructor; assumption.
Qed.

Lemma no_lf_quote s : no_lf (quote s).
Proof.
  unfold quote. apply no_lf_app; [repeat constructor; discriminate|].
  apply no_lf_app; [|repeat constructor; discriminate].
  apply no_lf_quote_chars_le with (n := length s). lia.
Qed.

Lemma no_lf_join l : Forall no_lf l -> no_lf (join l).
Proof.
  induction 1 as [|x l Hx Hl IH]; [constructor|].
  cbn [join]. destruct l; [exact Hx|].
  apply no_lf_app; [exact Hx|].
  apply no_lf_app; [repeat constructor; discriminate | exact IH].
Qed.

Lemma no_lf_stringify v : no_lf (stringify v).
Proof.
  induction v as [|b|x|s|items IH|props IH] using value_ind; cbn [stringify].
  - repeat constructor; discriminate.
  - destruct b; repeat constructor; discriminate.
  - destruct (JsNumber.is_finite x); [apply no_lf_number|].
    repeat constructor; discriminate.
  - apply no_lf_quote.
  - apply no_lf_app; [repeat constructor; discriminate|].
    apply no_lf_app; [|repeat constructor; discriminate].
    apply no_lf_join. now apply Forall_map.
  - apply no_lf_app; [repeat constructor; discriminate|].
    apply no_lf_app; [|repeat constructor; discriminate].
    apply no_lf_join. apply Forall_map.
    eapply Forall_impl; [|exact IH]. intros kv H.
    apply no_lf_app; [apply no_lf_quote|].
    apply no_lf_app; [repeat constructor; discriminate | exact H].
Qed.

Lemma count_LF_stringify v : count LF (stringify v) = 0.
Proof. apply count_zero_Forall. apply no_lf_stringify. Qed.

End StringifyFacts.

(** ** Parsed objects have distinct keys *)

Lemma hasOwn_In key props : hasOwn key props = true <-> In key (map fst props).
Proof.
  unfold hasOwn. induction props as [|[k v] l IH]; simpl; [split; [discriminate|tauto]|].
  destruct (eqb k key) eqn:E.
  - apply eqb_eq in E. split; auto.
  - apply eqb_neq in E. rewrite IH. split; [auto|]. intros [H|H]; [contradiction|exact H].
Qed.

Lemma nodupb_NoDup keys : nodupb keys = true <-> NoDup keys.
Proof.
  induction keys as [|k l IH]; simpl; [split; [constructor|reflexivity]|].
  rewrite andb_true_iff, negb_true_iff, IH. split.
  - intros [Hk Hl]. constructor; [|exact Hl]. intros Hin.
    assert (existsb (eqb k) l = true); [|congruence].
    apply existsb_exists. exists k. split; [exact Hin | apply eqb_refl].
  - intros H. inversion H as [|? ? Hk Hl]; subst. split; [|exact Hl].
    destruct (existsb (eqb k) l) eqn:E; [|reflexivity].
    apply existsb_exists in E as (x & Hx & Hkx). apply eqb_eq in Hkx. now subst.
Qed.

Lemma distinct_object props :
  distinct_keys (JObject props) = true <-> props_ok props.
Proof.
  cbn [distinct_keys]. unfold props_ok.
  now rewrite andb_true_iff, nodupb_NoDup, forallb_forall, Forall_forall.
Qed.

Lemma keys_Set_ key v props : map fst (Set_ key v props) = map fst props.
Proof.
  unfold Set_. rewrite map_map. apply map_ext.
  intros [k w]. simpl. now destruct (eqb k key).
Qed.

Lemma Set__ok key v props :
  props_ok props -> distinct_keys v = true -> props_ok (Set_ key v props).
Proof.
  intros [Hk Hv] Hd. split; [now rewrite keys_Set_|].
  unfold Set_. apply Forall_map. eapply Forall_impl; [|exact Hv].
  intros [k w] H. simpl. now destruct (eqb k key).
Qed.

Lemma insert_index_In i key v props x :
  In x (Json.insert_index i key v props) <-> x = (key, v) \/ In x props.
Proof.
  induction props as [|[k w] l IH]; simpl; [intuition congruence|].
  destruct (Json.array_index k) as [j|]; [destruct (j <? i)%N|]; simpl;
    try rewrite IH; intuition congruence.
Qed.

Lemma insert_index_NoDup i key v props :
  ~ In key (map fst props) -> NoDup (map fst props) ->
  NoDup (map fst (Json.insert_index i key v props)).
Proof.
  induction props as [|[k w] l IH]; simpl; intros Hnot Hnd;
    [constructor; [tauto|constructor]|].
  inversion Hnd as [|? ? Hk Hl]; subst.
  assert (Hhead : NoDup (key :: k :: map fst l)) by (constructor; simpl; tauto).
  destruct (Json.array_index k) as [j|]; [destruct (j <? i)%N|]; simpl; try exact Hhead.
  constructor; [|apply IH; tauto].
  intros Hin. apply in_map_iff in Hin as ([k' w'] & Hk' & Hin). simpl in Hk'. subst k'.
  apply insert_index_In in Hin as [Hin|Hin].
  - injection Hin as -> ->. tauto.
  - apply Hk. apply in_map_iff. now exists (k, w').
Qed.

Lemma NoDup_snoc {A} (l : list A) x : ~ In x l -> NoDup l -> NoDup (l ++ [x]).
Proof.
  induction l as [|y l IH]; simpl; intros Hx Hl; [constructor; [tauto|constructor]|].
  inversion Hl as [|? ? Hy Hl']; subst. constructor; [|apply IH; tauto].
  rewrite in_app_iff. simpl. intuition congruence.
Qed.

Lemma define_property_ok key v props :
  props_ok props -> distinct_keys v = true ->
  props_ok (Json.define_property key v props).
Proof.
  intros Hok Hd. unfold Json.define_property.
  destruct (hasOwn key props) eqn:Hown; [now apply Set__ok|].
  assert (Hnot : ~ In key (map fst props)).
  { intros Hin. apply hasOwn_In in Hin. congruence. }
  destruct Hok as [Hk Hv].
  destruct (Json.array_index key) as [i|]; split.
  - now apply insert_index_NoDup.
  - apply Forall_forall. intros x Hx. apply insert_index_In in Hx as [->|Hx];
      [exact Hd|]. rewrite Forall_forall in Hv. now apply Hv.
  - rewrite map_app. now apply NoDup_snoc.
  - apply Forall_app. split; [exact Hv|]. now constructor.
Qed.

Lemma parse_distinct_fuel : forall f,
    (forall s v r, Json.parse_value f s = Json.POk v r -> distinct_keys v = true)
    /\ (forall acc s v r, Json.parse_elements f acc s = Json.POk v r ->
                          forallb distinct_keys acc = true -> distinct_keys v = true)
    /\ (forall acc s v r, Json.parse_members f acc s = Json.POk v r ->
                          props_ok acc -> distinct_keys v = true).
Proof.
  induction f as [|f (IHv & IHe & IHm)]; [repeat split; intros; discriminate|].
  split; [|split].
  - intros s v r H. cbn [Json.parse_value] in H.
    destruct (Json.skip_ws s) as [|c rest]; [discriminate|].
    destruct (c =? 123)%N.
    { destruct (Json.skip_ws rest) as [|d rest'] eqn:Er; [discriminate|].
      destruct (d =? 125)%N; [injection H as <- <-; reflexivity|].
      eapply IHm; [exact H|]. split; constructor. }
    destruct (c =? 91)%N.
    { destruct (Json.skip_ws rest) as [|d rest'] eqn:Er; [discriminate|].
      destruct (d =? 93)%N; [injection H as <- <-; reflexivity|].
      eapply IHe; [exact H|]. reflexivity. }
    destruct (c =? 34)%N.
    { destruct (Json.parse_chars rest) as [[cs r0]|]; [|discriminate].
      injection H as <- <-. reflexivity. }
    destruct (c =? 116)%N.
    { destruct (Json.expect _ rest); [|discriminate]. injection H as <- <-. reflexivity. }
    destruct (c =? 102)%N.
    { destruct (Json.expect _ rest); [|discriminate]. injection H as <- <-. reflexivity. }
    destruct (c =? 110)%N.
    { destruct (Json.expect _ rest); [|discriminate]. injection H as <- <-. reflexivity. }
    destruct (Json.parse_number (c :: rest)) as [[x r0]|]; [|discriminate].
    injection H as <- <-. reflexivity.
  - intros acc s v r H Hacc. cbn [Json.parse_elements] in H.
    destruct (Json.parse_value f s) as [v0 rest| |] eqn:Ev; try discriminate.
    apply IHv in Ev.
    assert (Hacc' : forallb distinct_keys (acc ++ [v0]) = true).
    { rewrite forallb_app, Hacc. simpl. now rewrite Ev. }
    destruct (Json.skip_ws rest) as [|d rest']; [discriminate|].
    destruct (d =? 44)%N; [eapply IHe; eassumption|].
    destruct (d =? 93)%N; [|discriminate]. injection H as <- <-. exact Hacc'.
  - intros acc s v r H Hacc. cbn [Json.parse_members] in H.
    destruct (Json.skip_ws s) as [|q r0]; [discriminate|].
    destruct (q =? 34)%N; [|discriminate].
    destruct (Json.parse_chars r0) as [[key r1]|]; [|discriminate].
    destruct (Json.skip_ws r1) as [|col r2]; [discriminate|].
    destruct (col =? 58)%N; [|discriminate].
    destruct (Json.parse_value f r2) as [v0 rest| |] eqn:Ev; try discriminate.
    apply IHv in Ev.
    assert (Hacc' := @define_property_ok key v0 acc Hacc Ev).
    destruct (Json.skip_ws rest) as [|d rest']; [discriminate|].
    destruct (d =? 44)%N; [eapply IHm; eassumption|].
    destruct (d =? 125)%N; [|discriminate]. injection H as <- <-.
    now apply distinct_object.
Qed.

(** Every value [JSON.parse] returns has objects with distinct keys. *)
Lemma parse_distinct text v :
  Json.parse text = Some v -> distinct_keys v = true.
Proof.
  unfold Json.parse. intros H.
  destruct (Json.parse_value (2 * length text + 1) text) as [v0 rest| |] eqn:E;
    try discriminate.
  destruct (Json.skip_ws rest); [|discriminate]. injection H as <-.
  eapply (proj1 (parse_distinct_fuel _)); exact E.
Qed.

(** ** When the rewriter throws *)

Lemma Get_In_NoDup key v props :
  NoDup (map fst props) -> In (key, v) props -> Get key props = Some v.
Proof.
  induction props as [|[k w] l IH]; simpl; intros Hnd Hin; [contradiction|].
  inversion Hnd as [|? ? Hk Hl]; subst.
  destruct Hin as [Hin|Hin].
  - injection Hin as -> ->. now rewrite eqb_refl.
  - destruct (eqb k key) eqn:E; [|now apply IH].
    apply eqb_eq in E. subst k. exfalso. apply Hk.
    apply in_map_iff. now exists (key, v).
Qed.

(** On a well-formed value the rewriter throws exactly when some object
    has an own property named [hasOwnProperty], and then a TypeError. *)
Lemma processObject_thrown v :
  distinct_keys v = true ->
  thrown (processObject v) = if no_shadow v then None else Some TypeError.
Proof.
  induction v as [| | | |items IH|props IH] using value_ind; try reflexivity.
  - intros Hd. cbn [distinct_keys] in Hd. rewrite forallb_forall in Hd.
    cbn [processObject no_shadow].
    rewrite <- (each_thrown (fun item => item) processObject no_shadow TypeError items).
    + now destruct (each _ _ items).
    + intros x Hx. rewrite Forall_forall in IH. apply IH; auto.
  - intros Hd. apply distinct_object in Hd as [Hk Hv].
    rewrite Forall_forall in IH, Hv.
    cbn [processObject no_shadow].
    match goal with |- thrown (lift _ ?c) = _ =>
      replace (thrown (lift JObject c)) with (thrown c) by now destruct c end.
    erewrite each_thrown with
      (p := fun kv => negb (hasOwn (str "hasOwnProperty") props) && no_shadow (snd kv))
      (e := TypeError).
    + destruct (hasOwn (str "hasOwnProperty") props) eqn:Hown; simpl; [|reflexivity].
      destruct props as [|kv l]; [discriminate Hown|]. reflexivity.
    + intros kv Hkv. cbv beta.
      destruct (hasOwn (str "hasOwnProperty") props); [reflexivity|]. cbn [negb andb].
      specialize (IH kv Hkv (Hv kv Hkv)).
      destruct (base64_data props) as [d|] eqn:Hb; cbn [option_map].
      * destruct (eqb (fst kv) (str "data")) eqn:E.
        -- apply eqb_eq in E. destruct kv as [k w]. simpl in E. subst k.
           rewrite base64_data_strings in Hb. unfold string_at in Hb.
           rewrite (@Get_In_NoDup _ _ _ Hk Hkv) in Hb.
           destruct w; try (destruct (Get (str "type") props) as [[]|]; discriminate).
           reflexivity.
        -- rewrite <- IH. now destruct (processObject (snd kv)).
      * rewrite <- IH. now destruct (processObject (snd kv)).
Qed.

(** The lines the driver passes through: those that do not parse, and
    those whose value has an object with a key named [hasOwnProperty]. *)
Lemma fails_iff line :
  fails line = true <->
  Json.parse line = None
  \/ exists v, Json.parse line = Some v /\ no_shadow v = false.
Proof.
  unfold fails, transform.
  destruct (Json.parse line) as [v|] eqn:Hp; [|split; auto].
  assert (Ht := @processObject_thrown v (@parse_distinct _ _ Hp)).
  destruct (processObject v) as [v'|e v']; simpl in Ht;
    destruct (no_shadow v) eqn:Hs; try discriminate.
  - split; [discriminate|]. intros [H|(w & Hw & Hn)]; [discriminate|]. congruence.
  - split; [|reflexivity]. intros _. right. eauto.
Qed.

(** A line that parses to a value without such a key is written as the
    serialization of the rewritten value. *)
Lemma out_chunk_rewrite line v :
  Json.parse line = Some v -> no_shadow v = true ->
  out_chunk line = Json.stringify (spec_rewrite v) ++ [LF]
  /\ fails line = false.
Proof.
  intros Hp Hs. unfold out_chunk, fails, transform.
  rewrite Hp, (processObject_spec_rewrite v Hs). auto.
Qed.

(** ** The driver *)

Lemma contents_write chunk w :
  Stream.contents (Stream.write chunk w) = Stream.contents w ++ chunk.
Proof.
  unfold Stream.contents, Stream.write. simpl.
  rewrite app_assoc, concat_app. simpl. now rewrite app_nil_r.
Qed.

Lemma contents_flush k w :
  Stream.contents (Stream.flush k w) = Stream.contents w.
Proof.
  unfold Stream.contents, Stream.flush. simpl.
  now rewrite <- app_assoc, firstn_skipn.
Qed.

Lemma on_line_contents st line :
  Stream.contents (outputStream (on_line st line))
  = Stream.contents (outputStream st) ++ out_chunk line.
Proof.
  unfold on_line, out_chunk.
  destruct (transform line); simpl; apply contents_write.
Qed.

Lemma on_line_counters st line :
  lineCount (on_line st line) = S (lineCount st)
  /\ processedCount (on_line st line)
     = processedCount st + (if fails line then 0 else 1)
  /\ errorCount (on_line st line)
     = errorCount st + (if fails line then 1 else 0).
Proof.
  unfold on_line, fails. destruct (transform line); simpl; lia.
Qed.

Lemma deliver_spec lines : forall sched st,
    let st' := snd (deliver sched lines st) in
    Stream.contents (outputStream st')
    = Stream.contents (outputStream st) ++ concat (map out_chunk lines)
    /\ lineCount st' = lineCount st + length lines
    /\ processedCount st' + failures lines = processedCount st + length lines
    /\ errorCount st' = errorCount st + failures lines.
Proof.
  induction lines as [|line rest IH]; intros sched st; cbn [deliver].
  - simpl. rewrite app_nil_r. unfold failures. simpl. repeat split; lia.
  - specialize (IH (tl sched) (on_line (writer_step (hd 0 sched) st) line)).
    cbv zeta in IH |- *. destruct IH as (Hc & Hl & Hp & He).
    rewrite Hc, Hl, He. rewrite on_line_contents.
    destruct (on_line_counters (writer_step (hd 0 sched) st) line) as (Cl & Cp & Ce).
    rewrite Cl, Ce. rewrite Cp in Hp. cbn [writer_step outputStream lineCount
      processedCount errorCount] in *.
    rewrite contents_flush. unfold failures in *. cbn [filter map concat].
    rewrite <- app_assoc.
    destruct (fails line); cbn [length]; repeat split; try lia; reflexivity.
Qed.

Lemma run_spec fs sched lines inputPath outputDir :
  input_exists fs = true ->
  exists summary st,
    processJsonlFile fs sched lines inputPath outputDir = (Resolved summary, Some st)
    /\ Stream.contents (outputStream st) = concat (map out_chunk lines)
    /\ lineCount st = length lines
    /\ linesProcessed summary + failures lines = length lines
    /\ errors summary = failures lines
    /\ inputSize summary = input_size fs
    /\ outputSize summary = Stream.stat_size (outputStream st)
    /\ outputPath summary = Path.join outputDir (outputFilename inputPath).
Proof.
  intros Hex. unfold processJsonlFile. rewrite Hex. cbn [negb].
  destruct (deliver_spec lines sched (initial fs)) as (Hc & Hl & Hp & He).
  destruct (deliver sched lines (initial fs)) as [sched' st]. cbn [snd] in *.
  unfold on_close. eexists. eexists. split; [reflexivity|].
  cbn [outputStream lineCount linesProcessed errors inputSize outputSize outputPath
       writer_step processedCount errorCount].
  repeat split; try assumption.
  - unfold Stream.end_, Stream.contents. cbn [flushed pending].
    fold (Stream.contents (Stream.flush (hd 0 sched') (outputStream st))).
    rewrite contents_flush, Hc. reflexivity.
Qed.

Lemma out_chunk_line line :
  exists body, out_chunk line = body ++ [LF]
               /\ (no_lf line -> no_lf body)
               /\ (fails line = true -> body = line).
Proof.
  unfold out_chunk, fails, transform.
  destruct (Json.parse line) as [v|].
  - destruct (processObject v) as [v'|e v'].
    + exists (Json.stringify v'). split; [reflexivity|].
      split; [intros _; apply StringifyFacts.no_lf_stringify | discriminate].
    + exists line. auto.
  - exists line. auto.
Qed.

Lemma count_LF_chunk line : no_lf line -> count LF (out_chunk line) = 1.
Proof.
  intros H. destruct (out_chunk_line line) as (body & -> & Hb & _).
  rewrite count_app. apply Hb in H. apply count_zero_Forall in H.
  rewrite H. reflexivity.
Qed.

(** C2.  Each line the reader delivers (a string without line feed: the
    reader splits its input there) makes the handler write exactly one
    chunk, a text without line feed followed by one line feed, and the
    chunks reach the file in the order of the lines: an input of N lines
    gives an output of N lines, whether the lines parse or not. *)
Theorem line_count fs sched lines inputPath outputDir :
  input_exists fs = true ->
  Forall no_lf lines ->
  exists summary st,
    processJsonlFile fs sched lines inputPath outputDir = (Resolved summary, Some st)
    /\ Stream.contents (outputStream st) = concat (map out_chunk lines)
    /\ Forall2 (fun line chunk =>
                  exists body, chunk = body ++ [LF] /\ no_lf body
                               /\ (fails line = true -> body = line))
               lines (map out_chunk lines)
    /\ count LF (Stream.contents (outputStream st)) = length lines
    /\ lineCount st = length lines.
Proof.
  intros Hex Hlines.
  destruct (run_spec fs sched lines inputPath outputDir Hex)
    as (summary & st & Hrun & Hc & Hl & _).
  exists summary, st. split; [exact Hrun|]. split; [exact Hc|].
  split; [|split; [|exact Hl]].
  - clear - Hlines. induction Hlines as [|line rest Hline _ IH]; simpl; constructor.
    + destruct (out_chunk_line line) as (body & Hb & Hn & Hf).
      exists body. auto.
    + exact IH.
  - rewrite Hc, count_concat. clear - Hlines.
    induction Hlines as [|line rest Hline _ IH]; simpl; [reflexivity|].
    rewrite count_LF_chunk by assumption. now rewrite IH.
Qed.

Lemma line_count_witness :
  exists summary st,
    processJsonlFile Sample.fs [1; 0] [Sample.marker_line 120; Sample.bad_line]
                     (str "/in/s.jsonl") (str "/out")
    = (Resolved summary, Some st)
    /\ Stream.contents (outputStream st)
       = concat (map out_chunk [Sample.marker_line 120; Sample.bad_line])
    /\ Forall2 (fun line chunk =>
                  exists body, chunk = body ++ [LF] /\ no_lf body
                               /\ (fails line = true -> body = line))
               [Sample.marker_line 120; Sample.bad_line]
               (map out_chunk [Sample.marker_line 120; Sample.bad_line])
    /\ count LF (Stream.contents (outputStream st)) = 2
    /\ lineCount st = 2.
Proof.
  apply (@line_count Sample.fs [1; 0] [Sample.marker_line 120; Sample.bad_line]
                    (str "/in/s.jsonl") (str "/out")).
  - reflexivity.
  - constructor; [apply count_zero_Forall; vm_compute; reflexivity|].
    constructor; [apply count_zero_Forall; vm_compute; reflexivity|].
    constructor.
Defined.

Lemma transform_parse_failure line :
  Json.parse line = None -> transform line = Throw SyntaxError line.
Proof. unfold transform. now intros ->. Qed.

Lemma failures_app a b : failures (a ++ b) = failures a + failures b.
Proof. unfold failures. now rewrite filter_app, length_app. Qed.

(** C3.  A line [JSON.parse] rejects is written as it came, followed by
    a line feed; the error counter goes up by one, the other two counters
    as for any line; the lines before and after are handled as they would
    be without it, and the run ends with its summary.  ([Json.parse]
    returns [None] only for a text that is not JSON: see
    [JsonFacts.parse_value_fuel].) *)
Theorem parse_failure_passthrough fs sched pre line post inputPath outputDir :
  input_exists fs = true ->
  Json.parse line = None ->
  (forall st,
      on_line st line =
      {| lineCount := S (lineCount st);
         processedCount := processedCount st;
         errorCount := S (errorCount st);
         outputStream := Stream.write (line ++ [LF]) (outputStream st);
         console := console st ++ [ErrorParsingLine (S (lineCount st)) SyntaxError] |})
  /\ exists summary st,
      processJsonlFile fs sched (pre ++ line :: post) inputPath outputDir
      = (Resolved summary, Some st)
      /\ Stream.contents (outputStream st)
         = concat (map out_chunk pre) ++ (line ++ [LF]) ++ concat (map out_chunk post)
      /\ errors summary = failures pre + 1 + failures post
      /\ linesProcessed summary + failures pre + failures post
         = length pre + length post
      /\ lineCount st = length pre + 1 + length post.
Proof.
  intros Hex Hparse. split.
  - intros st. unfold on_line. now rewrite (transform_parse_failure _ Hparse).
  - destruct (run_spec fs sched (pre ++ line :: post) inputPath outputDir Hex)
      as (summary & st & Hrun & Hc & Hl & Hp & He & _).
    exists summary, st. split; [exact Hrun|].
    assert (Hf : fails line = true)
      by (unfold fails; now rewrite (transform_parse_failure _ Hparse)).
    assert (Ho : out_chunk line = line ++ [LF])
      by (unfold out_chunk; now rewrite (transform_parse_failure _ Hparse)).
    assert (Hfl : failures (pre ++ line :: post) = failures pre + 1 + failures post).
    { rewrite failures_app. unfold failures at 2. cbn [filter]. rewrite Hf.
      cbn [length]. unfold failures. lia. }
    rewrite Hfl in *. rewrite length_app in *. cbn [length] in *.
    repeat split; try lia.
    rewrite Hc, map_app, concat_app. cbn [map concat]. now rewrite Ho.
Qed.

Lemma parse_failure_passthrough_witness :
  (forall st,
      on_line st Sample.bad_line =
      {| lineCount := S (lineCount st);
         processedCount := processedCount st;
         errorCount := S (errorCount st);
         outputStream := Stream.write (Sample.bad_line ++ [LF]) (outputStream st);
         console := console st ++ [ErrorParsingLine (S (lineCount st)) SyntaxError] |})
  /\ exists summary st,
      processJsonlFile Sample.fs [0; 1] ([Sample.spaced_line] ++ Sample.bad_line :: [Sample.other_line])
                       (str "/in/s.jsonl") (str "/out")
      = (Resolved summary, Some st)
      /\ Stream.contents (outputStream st)
         = concat (map out_chunk [Sample.spaced_line]) ++ (Sample.bad_line ++ [LF])
                  ++ concat (map out_chunk [Sample.other_line])
      /\ errors summary = failures [Sample.spaced_line] + 1 + failures [Sample.other_line]
      /\ linesProcessed summary + failures [Sample.spaced_line] + failures [Sample.other_line]
         = length [Sample.spaced_line] + length [Sample.other_line]
      /\ lineCount st = length [Sample.spaced_line] + 1 + length [Sample.other_line].
Proof.
  apply (@parse_failure_passthrough Sample.fs [0; 1] [Sample.spaced_line]
           Sample.bad_line [Sample.other_line] (str "/in/s.jsonl") (str "/out")).
  - reflexivity.
  - vm_compute. reflexivity.
Defined.

(** ** The summary (claims C7 and C8) *)




Lemma byteLength_pos (s : jsstring) : s <> [] -> 0 < byteLength s.
Proof.
  destruct s as [|c rest]; [congruence|]. intros _.
  unfold byteLength. cbn [utf8_encode].
  assert (Hcp : forall cp, 0 < length (utf8_of_code_point cp)).
  { intros cp. unfold utf8_of_code_point.
    destruct (cp <? 128)%N; [simpl; lia|].
    destruct (cp <? 2048)%N; [simpl; lia|].
    destruct (cp <? 65536)%N; simpl; lia. }
  destruct (is_high_surrogate c).
  - destruct rest as [|d rest']; [apply Hcp|].
    destruct (is_low_surrogate d); rewrite length_app;
      match goal with |- 0 < length (utf8_of_code_point ?cp) + _ =>
        specialize (Hcp cp) end; lia.
  - destruct (is_low_surrogate c); rewrite length_app;
      match goal with |- 0 < length (utf8_of_code_point ?cp) + _ =>
        specialize (Hcp cp) end; lia.
Qed.

Lemma deliver_idle lines : forall st,
    flushed (outputStream st) = [] ->
    flushed (outputStream (snd (deliver [] lines st))) = []
    /\ pending (outputStream (snd (deliver [] lines st)))
       = pending (outputStream st) ++ map out_chunk lines
    /\ fst (deliver [] lines st) = [].
Proof.
  induction lines as [|line rest IH]; intros st H; cbn [deliver].
  - cbn [map snd fst]. now rewrite app_nil_r.
  - cbn [hd tl].
    specialize (IH (on_line (writer_step 0 st) line)).
    assert (Hst : flushed (outputStream (on_line (writer_step 0 st) line)) = []
                  /\ pending (outputStream (on_line (writer_step 0 st) line))
                     = pending (outputStream st) ++ [out_chunk line]).
    { unfold on_line, out_chunk.
      destruct (transform line); cbn [outputStream writer_step Stream.write
        Stream.flush flushed pending firstn skipn]; now rewrite H, app_nil_r. }
    destruct Hst as [Hf Hp]. destruct (IH Hf) as (IHf & IHp & IHs).
    rewrite IHf, IHp, IHs, Hp. cbn [map]. now rewrite <- app_assoc.
Qed.

(** Whatever the input, if it has a line and the writer has completed
    nothing when the reader closes, the summary says 0 bytes for a file
    that will not be empty. *)
Lemma stale_size fs line rest inputPath outputDir :
  input_exists fs = true ->
  exists summary st,
    processJsonlFile fs [] (line :: rest) inputPath outputDir
    = (Resolved summary, Some st)
    /\ outputSize summary = 0
    /\ 0 < Stream.final_size (outputStream st).
Proof.
  intros Hex. unfold processJsonlFile. rewrite Hex. cbn [negb].
  destruct (deliver_idle (line :: rest) (initial fs) eq_refl) as (Hfl & Hpe & Hsched).
  destruct (deliver [] (line :: rest) (initial fs)) as [sched' st].
  cbn [fst snd] in *. subst sched'. unfold on_close.
  eexists. eexists. split; [reflexivity|].
  cbn [outputSize outputStream writer_step Stream.end_ Stream.flush hd firstn skipn].
  unfold Stream.stat_size, Stream.final_size, Stream.end_, Stream.flush.
  cbn [flushed pending firstn skipn].
  rewrite app_nil_r, Hfl, Hpe. cbn [initial outputStream Stream.create pending app map
    list_sum fold_right].
  split; [reflexivity|].
  assert (0 < byteLength (out_chunk line)); [|lia].
  apply byteLength_pos. destruct (out_chunk_line line) as (body & -> & _).
  now destruct body.
Qed.

(** C8: what the code does.  [outputStream.end()] returns at once and
    [statSync] is called in the same handler: when the writer has not
    caught up, the size is read while chunks are still queued.  With one
    line and a writer that has completed nothing by the time the reader
    closes, the summary says 0 bytes for a file that will hold 3. *)
Theorem size_read_before_flush :
  exists summary st,
    processJsonlFile Sample.fs [] [str "{}"] (str "/in/s.jsonl") (str "/out")
    = (Resolved summary, Some st)
    /\ pending (outputStream st) = [str "{}" ++ [LF]]
    /\ outputSize summary = 0
    /\ Stream.final_size (outputStream st) = 3.
Proof.
  eexists. eexists. split; [vm_compute; reflexivity|].
  repeat split.
Qed.

(** ** The output name (claim C9) *)

(** C9: what the code does.  [replace] with a string pattern rewrites the
    first [.jsonl] of the base name, which need not be its suffix. *)
Theorem first_jsonl_replaced :
  Path.basename (str "/logs/run.jsonl.old.jsonl") = str "run.jsonl.old.jsonl"
  /\ outputFilename (str "/logs/run.jsonl.old.jsonl") = str "run.hashed.jsonl.old.jsonl"
  /\ spec_outputFilename (str "/logs/run.jsonl.old.jsonl")
     = str "run.jsonl.old.hashed.jsonl"
  /\ Path.join (str "/out") (outputFilename (str "/logs/run.jsonl.old.jsonl"))
     = str "/out/run.hashed.jsonl.old.jsonl".
Proof. repeat split. Qed.

Lemma replace_stem stem :
  mem 46 stem = false ->
  JsString.replace (str ".jsonl") (str ".hashed.jsonl") (stem ++ str ".jsonl")
  = stem ++ str ".hashed.jsonl".
Proof.
  induction stem as [|c stem IH]; intros H; [reflexivity|].
  unfold mem in H. cbn [existsb] in H. apply orb_false_iff in H as [Hc Hs].
  cbn [app JsString.replace].
  replace (JsString.starts_with (str ".jsonl") (c :: stem ++ str ".jsonl")) with false
    by (cbn [JsString.starts_with str map String.list_ascii_of_string];
        change (N_of_ascii "."%char) with 46%N; now rewrite Hc).
  f_equal. apply IH. exact Hs.
Qed.

(** For the usual names, a stem without dot followed by [.jsonl], the
    output name is the one the specification asks for. *)
Lemma outputFilename_stem inputPath stem :
  Path.basename inputPath = stem ++ str ".jsonl" ->
  mem 46 stem = false ->
  outputFilename inputPath = stem ++ str ".hashed.jsonl"
  /\ spec_outputFilename inputPath = stem ++ str ".hashed.jsonl".
Proof.
  intros Hb Hs. unfold outputFilename, spec_outputFilename. rewrite Hb.
  split; [now apply replace_stem|].
  rewrite length_app. change (length (str ".jsonl")) with 6.
  replace (length stem + 6 - 6) with (length stem + 0) by lia.
  rewrite skipn_app, firstn_app, Nat.add_0_r, skipn_all, firstn_all.
  replace (length stem - length stem) with 0 by lia.
  cbn [skipn firstn app]. rewrite eqb_refl, app_nil_r. reflexivity.
Qed.

(** ** Reserialization (claim C10) *)


(** ** Shadowed [hasOwnProperty] (claim C1) *)

(** The threshold of line 31: 100 characters are left, 101 are hashed. *)
Lemma threshold :
  processObject (Sample.marker 100) = Normal (Sample.marker 100)
  /\ processObject (Sample.marker 101)
     = Normal (JObject [(str "type", JString (str "base64"));
                        (str "data", JString (hashData (Sample.x_times 101)))])
  /\ processObject (JObject [(str "type", JString (str "base64")); (str "data", JNull)])
     = Normal (JObject [(str "type", JString (str "base64")); (str "data", JNull)])
  /\ processObject (JObject [(str "type", JString (str "other"));
                             (str "data", JString (Sample.x_times 101))])
     = Normal (JObject [(str "type", JString (str "other"));
                        (str "data", JString (Sample.x_times 101))]).
Proof. repeat split; vm_compute; reflexivity. Qed.

(** C1: what the code does.  In an object that has a key named
    [hasOwnProperty], [obj.hasOwnProperty] is that property and the call
    of line 38 throws: the walk stops there.  The payload that follows in
    the array passes the test of line 31 and is not hashed; the line is
    valid JSON and is written unchanged, counted as an error. *)
Theorem payload_after_shadow_not_hashed :
  Json.parse Sample.shadowed_line = Some Sample.shadowed
  /\ nth 1 (match Sample.shadowed with JArray items => items | _ => [] end) JNull
     = Sample.marker 101
  /\ base64_data [(str "type", JString (str "base64"));
                  (str "data", JString (Sample.x_times 101))]
     = Some (Sample.x_times 101)
  /\ processObject Sample.shadowed = Throw TypeError Sample.shadowed
  /\ spec_rewrite Sample.shadowed <> Sample.shadowed
  /\ out_chunk Sample.shadowed_line = Sample.shadowed_line ++ [LF]
  /\ fails Sample.shadowed_line = true.
Proof.
  split; [vm_compute; reflexivity|].
  split; [reflexivity|].
  split; [vm_compute; reflexivity|].
  split; [vm_compute; reflexivity|].
  split; [vm_compute; discriminate|].
  split; vm_compute; reflexivity.
Qed.

(** ** Test vectors for the platform functions *)

Example sha256_first_constants :
  firstn 2 Sha256.K = [0x428a2f98; 0x71374491]%N
  /\ last Sha256.K 0%N = 0xc67178f2%N
  /\ length Sha256.K = 64
  /\ firstn 2 Sha256.H0 = [0x6a09e667; 0xbb67ae85]%N
  /\ last Sha256.H0 0%N = 0x5be0cd19%N.
Proof. repeat split. Qed.

Example sha256_abc :
  hashData (str "abc")
  = str "ba7816bf8f01cfea414140de5dae2223b00361a396177a9cb410ff61f20015ad".
Proof. vm_compute. reflexivity. Qed.

Example sha256_empty :
  hashData (str "")
  = str "e3b0c44298fc1c149afbf4c8996fb92427ae41e4649b934ca495991b7852b855".
Proof. vm_compute. reflexivity. Qed.

Example sha256_two_blocks :
  hashData (str "abcdbcdecdefdefgefghfghighijhijkijkljklmklmnlmnomnopnopq")
  = str "248d6a61d20638b8e5c026930c3e6039a33ce45964ff2167f6ecedd419db06c1".
Proof. vm_compute. reflexivity. Qed.

Example number_round_trips :
  map (fun t => option_map Json.stringify (Json.parse (str t)))
      ["0.1"; "1e21"; "1e-7"; "0.000001"; "5e-324"; "100"; "1.50"; "-0";
       "1e400"; "12345678901234567890"; "9007199254740993"; "01"; "1."; "-"]%string
  = map (option_map str)
      [Some "0.1"; Some "1e+21"; Some "1e-7"; Some "0.000001"; Some "5e-324";
       Some "100"; Some "1.5"; Some "0"; Some "null";
       Some "12345678901234567000"; Some "9007199254740992"; None; None; None]%string.
Proof. vm_compute. reflexivity. Qed.

Example parse_orders_keys :
  option_map Json.stringify
    (Json.parse (Sample.json " { 'b' : [ 1 , true ] , '2' : null , 'a' : {} , '1' : 'x' , 'b' : 7 } "))
  = Some (Sample.json "{'1':'x','2':null,'b':7,'a':{}}").
Proof. vm_compute. reflexivity. Qed.

Example parse_rejects :
  map (fun t => Json.parse (Sample.json t))
      ["{'foo': }"; "not valid json"; "[1,]"; ""; "1 2"; "{'a':1,}"; "'abc"; "tru"]%string
  = [None; None; None; None; None; None; None; None].
Proof. vm_compute. reflexivity. Qed.

Example end_to_end :
  exists st,
    processJsonlFile Sample.fs [0; 1; 1; 1]
                     [Sample.marker_line 120; Sample.other_line; str "not valid json"]
                     (str "/in/session.jsonl") (str "/out")
    = (Resolved {| linesProcessed := 2; errors := 1; inputSize := 300;
                   outputSize := 254;
                   outputPath := str "/out/session.hashed.jsonl" |}, Some st)
    /\ Stream.contents (outputStream st)
       = Sample.json "{'type':'base64','data':'"
           ++ str "13f05a0b594787f5ecd315edc96141bd3243203d1b7d4f0836f37308b276ba98"
           ++ Sample.json "'}" ++ [LF]
           ++ Sample.other_line ++ [LF]
           ++ str "not valid json" ++ [LF].
Proof. eexists. split; vm_compute; reflexivity. Qed.

(* ================================================================== *)
(** * Further properties *)

(** ** What the rewriter does to a whole value *)





Lemma each_normal_inv {A} (cur : A -> A) (body : A -> Completion A) (l l' : list A) :
  each cur body l = Normal l' -> Forall2 (fun x x' => body x = Normal x') l l'.
Proof.
  revert l'. induction l as [|x rest IH]; intros l' H; simpl in H.
  - injection H as <-. constructor.
  - destruct (body x) as [x'|e x'] eqn:Ex; [|discriminate].
    destruct (each cur body rest) as [rest'|e rest']; [|discriminate].
    injection H as <-. constructor; auto.
Qed.

Lemma Forall2_existsb_false {A} (R : A -> A -> Prop) (p : A -> bool) (l l' : list A) :
  Forall2 R l l' ->
  (forall x x', In x l -> R x x' -> p x' = false) ->
  existsb p l' = false.
Proof.
  induction 1 as [|x x' l l' Hx _ IH]; intros Hp; [reflexivity|].
  cbn [existsb]. rewrite (Hp x x' (or_introl eq_refl) Hx).
  apply IH. intros y y' Hy. apply Hp. now right.
Qed.

(** X3.  When [processObject] returns, no payload is left: no object of
    the value it leaves passes the test of line 31. *)
Theorem returned_value_has_no_marker : forall v v',
    processObject v = Normal v' -> has_marker v' = false.
Proof.
  induction v as [| | | |items IH|props IH] using value_ind; intros v' H;
    try (injection H as <-; reflexivity).
  - cbn [processObject] in H.
    destruct (each (fun item => item) processObject items) as [items'|] eqn:E;
      [|discriminate].
    injection H as <-. apply each_normal_inv in E. cbn [has_marker].
    rewrite Forall_forall in IH.
    eapply Forall2_existsb_false; [exact E|]. intros x x' Hx. now apply IH.
  - assert (Hst : state_of (processObject (JObject props)) = v') by now rewrite H.
    cbn [processObject] in H.
    match type of H with lift JObject ?c = _ => destruct c as [props'|] eqn:E end;
      [|discriminate].
    injection H as <-.
    destruct (base64_data_after props Hst) as [Hnone _].
    cbn [has_marker]. rewrite Hnone. cbn [orb].
    apply each_normal_inv in E. rewrite Forall_forall in IH.
    eapply Forall2_existsb_false; [exact E|]. cbv beta.
    intros kv kv' Hin Hkv.
    destruct (hasOwn (str "hasOwnProperty") props); [discriminate|].
    destruct (option_map hashData (base64_data props)) as [h|].
    + destruct (eqb (fst kv) (str "data")); [now injection Hkv as <-|].
      destruct (processObject (snd kv)) as [w|] eqn:Ew; [|discriminate].
      injection Hkv as <-. now apply (IH kv Hin).
    + destruct (processObject (snd kv)) as [w|] eqn:Ew; [|discriminate].
      injection Hkv as <-. now apply (IH kv Hin).
Qed.

Lemma returned_value_has_no_marker_witness :
  has_marker (spec_rewrite Cases.nested) = false.
Proof.
  apply (@returned_value_has_no_marker Cases.nested (spec_rewrite Cases.nested)).
  vm_compute. reflexivity.
Defined.

Lemma Forall2_eq {A} (l l' : list A) : Forall2 eq l l' -> l' = l.
Proof. induction 1; congruence. Qed.

(** X4.  A value in which no object passes the test of line 31 is left
    exactly as it was, whether the call returns or throws. *)
Theorem unmarked_value_untouched : forall v,
    has_marker v = false -> state_of (processObject v) = v.
Proof.
  induction v as [| | | |items IH|props IH] using value_ind; intros H;
    try reflexivity.
  - cbn [has_marker] in H. cbn [processObject].
    match goal with |- state_of (lift _ ?c) = _ =>
      replace (state_of (lift JArray c)) with (JArray (state_of c))
        by now destruct c end.
    f_equal. apply Forall2_eq. rewrite Forall_forall in IH.
    apply each_related; intros x Hx; [reflexivity|].
    symmetry. apply IH; [exact Hx|].
    destruct (has_marker x) eqn:E; [|reflexivity].
    assert (existsb has_marker items = true); [|congruence].
    apply existsb_exists. eauto.
  - cbn [has_marker] in H. apply orb_false_iff in H as [Hb Hch].
    destruct (base64_data props) as [d|] eqn:Hd; [discriminate|].
    cbn [processObject]. rewrite Hd. cbn [option_map].
    match goal with |- state_of (lift _ ?c) = _ =>
      replace (state_of (lift JObject c)) with (JObject (state_of c))
        by now destruct c end.
    f_equal. apply Forall2_eq. rewrite Forall_forall in IH.
    apply each_related; intros kv Hkv; [reflexivity|].
    destruct (hasOwn (str "hasOwnProperty") props); [reflexivity|].
    assert (Hm : has_marker (snd kv) = false).
    { destruct (has_marker (snd kv)) eqn:E; [|reflexivity].
      assert (existsb (fun kv => has_marker (snd kv)) props = true); [|congruence].
      apply existsb_exists. eauto. }
    specialize (IH kv Hkv Hm).
    destruct (processObject (snd kv)); simpl in *; subst; now destruct kv.
Qed.

Lemma unmarked_value_untouched_witness :
  state_of (processObject Cases.plain) = Cases.plain.
Proof. apply (@unmarked_value_untouched Cases.plain). reflexivity. Defined.

(** ** A throw leaves the value half rewritten *)

Lemma each_throw_inv {A} (body : A -> Completion A) (l st : list A) e :
  each (fun x => x) body l = Throw e st ->
  exists pre x post x',
    l = pre ++ x :: post
    /\ Forall (fun y => exists y', body y = Normal y') pre
    /\ body x = Throw e x'
    /\ st = map (fun y => state_of (body y)) pre ++ x' :: post.
Proof.
  revert st. induction l as [|y rest IH]; intros st H; simpl in H; [discriminate|].
  destruct (body y) as [y'|e' y'] eqn:Ey.
  - destruct (each (fun x => x) body rest) as [rest'|e' rest'] eqn:Er; [discriminate|].
    injection H as -> <-.
    destruct (IH _ eq_refl) as (pre & x & post & x' & -> & Hpre & Hx & ->).
    exists (y :: pre), x, post, x'. repeat split; auto.
    + constructor; eauto.
    + simpl. now rewrite Ey.
  - injection H as -> <-. exists [], y, rest, y'.
    rewrite map_id. repeat split; auto.
Qed.

(** X15.  When [processObject] throws on an array, the array is left
    half rewritten: the elements before the one that threw have been
    processed to the end (their payloads are hashed), the element that
    threw is as the throw left it, and the elements after it have not
    been touched. *)
Theorem array_half_rewritten items e st :
  processObject (JArray items) = Throw e st ->
  exists pre x post x',
    items = pre ++ x :: post
    /\ Forall (fun y => exists y', processObject y = Normal y') pre
    /\ processObject x = Throw e x'
    /\ st = JArray (map (fun y => state_of (processObject y)) pre ++ x' :: post).
Proof.
  intros H. cbn [processObject] in H.
  destruct (each (fun item => item) processObject items) as [|e' st'] eqn:E;
    [discriminate|].
  injection H as -> <-.
  destruct (each_throw_inv _ _ E) as (pre & x & post & x' & -> & Hpre & Hx & ->).
  exists pre, x, post, x'. auto.
Qed.

Lemma array_half_rewritten_witness :
  exists pre x post x',
    [Sample.marker 101; JObject [(str "hasOwnProperty", JBool true)]; Sample.marker 101]
    = pre ++ x :: post
    /\ Forall (fun y => exists y', processObject y = Normal y') pre
    /\ processObject x = Throw TypeError x'
    /\ JArray [JObject [(str "type", JString (str "base64"));
                        (str "data", JString (hashData (Sample.x_times 101)))];
               JObject [(str "hasOwnProperty", JBool true)];
               Sample.marker 101]
       = JArray (map (fun y => state_of (processObject y)) pre ++ x' :: post).
Proof.
  apply (@array_half_rewritten
           [Sample.marker 101; JObject [(str "hasOwnProperty", JBool true)];
            Sample.marker 101]
           TypeError
           (JArray [JObject [(str "type", JString (str "base64"));
                             (str "data", JString (hashData (Sample.x_times 101)))];
                    JObject [(str "hasOwnProperty", JBool true)];
                    Sample.marker 101])).
  vm_compute. reflexivity.
Defined.

(** ** Hashing never lengthens a record *)

Lemma length_join (l : list jsstring) :
  length (Json.join l) = list_sum (map (@length N) l) + (length l - 1).
Proof.
  induction l as [|x rest IH]; [reflexivity|].
  cbn [Json.join]. destruct rest as [|y rest'].
  - simpl. lia.
  - rewrite !length_app, IH. simpl. lia.
Qed.

Lemma join_map_le {A} (f : A -> jsstring) (l l' : list A) :
  Forall2 (fun x x' => length (f x') <= length (f x)) l l' ->
  length (Json.join (map f l')) <= length (Json.join (map f l)).
Proof.
  intros H. rewrite !length_join, !length_map.
  rewrite (Forall2_length H).
  assert (list_sum (map (@length N) (map f l'))
          <= list_sum (map (@length N) (map f l))); [|lia].
  induction H as [|x x' l l' Hx _ IH]; simpl; lia.
Qed.

Lemma length_quote_chars_le n :
  forall s, length s <= n -> length s <= length (Json.quote_chars s).
Proof.
  induction n as [|n IH]; intros s Hn.
  - destruct s; simpl in *; lia.
  - destruct s as [|c rest]; [simpl; lia|]. simpl in Hn.
    assert (Hrest : length rest <= length (Json.quote_chars rest)) by (apply IH; lia).
    cbn [Json.quote_chars].
    repeat match goal with
           | |- _ <= length (if (c =? ?k)%N then _ else _) =>
               destruct (c =? k)%N; [rewrite length_app; simpl; lia|]
           end.
    destruct (c <? 32)%N; [rewrite length_app; simpl; lia|].
    destruct (is_high_surrogate c).
    + destruct rest as [|d rest']; [simpl; lia|].
      destruct (is_low_surrogate d).
      * assert (length rest' <= length (Json.quote_chars rest'))
          by (apply IH; simpl in Hn; lia).
        simpl. lia.
      * rewrite length_app. simpl in *. lia.
    + destruct (is_low_surrogate c); [rewrite length_app; simpl; lia|].
      simpl. lia.
Qed.

Lemma quote_chars_hex (s : jsstring) :
  Forall (fun c => is_lower_hex c = true) s -> Json.quote_chars s = s.
Proof.
  induction 1 as [|c s Hc _ IH]; [reflexivity|].
  assert (Hb : (48 <= c <= 57 \/ 97 <= c <= 102)%N).
  { unfold is_lower_hex in Hc. apply orb_true_iff in Hc as [Hc|Hc];
      apply andb_true_iff in Hc as [H1 H2];
      apply N.leb_le in H1; apply N.leb_le in H2; lia. }
  cbn [Json.quote_chars].
  destruct (N.eqb_spec c 8); [lia|]. destruct (N.eqb_spec c 9); [lia|].
  destruct (N.eqb_spec c 10); [lia|]. destruct (N.eqb_spec c 12); [lia|].
  destruct (N.eqb_spec c 13); [lia|]. destruct (N.eqb_spec c 34); [lia|].
  destruct (N.eqb_spec c 92); [lia|].
  destruct (N.ltb_spec c 32); [lia|].
  unfold is_high_surrogate, is_low_surrogate.
  destruct (N.leb_spec 0xD800 c); [lia|].
  destruct (N.leb_spec 0xDC00 c); [lia|].
  cbn [andb]. now rewrite IH.
Qed.

Lemma length_stringify_digest d :
  length (Json.stringify (JString (hashData d))) = 66.
Proof.
  cbn [Json.stringify]. unfold Json.quote.
  rewrite quote_chars_hex by apply hex_lower.
  rewrite !length_app, length_hashData. reflexivity.
Qed.

Lemma length_stringify_string s :
  length s + 2 <= length (Json.stringify (JString s)).
Proof.
  cbn [Json.stringify]. unfold Json.quote. rewrite !length_app.
  assert (H := @length_quote_chars_le (length s) s (le_n _)). simpl. lia.
Qed.

(** X5.  Hashing never makes a record longer: for a value whose objects
    have distinct keys, the text [JSON.stringify] gives for the value
    [processObject] leaves has at most as many characters (code units) as
    the text it gives for the value as it was. *)
Theorem rewritten_text_not_longer : forall v,
    distinct_keys v = true ->
    length (Json.stringify (state_of (processObject v)))
    <= length (Json.stringify v).
Proof.
  induction v as [| | | |items IH|props IH] using value_ind; intros Hd;
    try (simpl; lia).
  - cbn [distinct_keys] in Hd. rewrite forallb_forall in Hd.
    rewrite Forall_forall in IH. cbn [processObject].
    match goal with |- context [state_of (lift _ ?c)] =>
      replace (state_of (lift JArray c)) with (JArray (state_of c))
        by now destruct c end.
    cbn [Json.stringify]. rewrite !length_app.
    apply Nat.add_le_mono_l, Nat.add_le_mono_r.
    apply join_map_le.
    apply each_related; intros x Hx; [lia | apply IH; auto].
  - apply distinct_object in Hd as [Hk Hv].
    rewrite Forall_forall in IH, Hv. cbn [processObject].
    match goal with |- context [state_of (lift _ ?c)] =>
      replace (state_of (lift JObject c)) with (JObject (state_of c))
        by now destruct c end.
    cbn [Json.stringify]. rewrite !length_app.
    apply Nat.add_le_mono_l, Nat.add_le_mono_r.
    apply join_map_le.
    assert (Hcur : forall kv, In kv props ->
               length (Json.quote (fst (match option_map hashData (base64_data props) with
                          | Some h => if eqb (fst kv) (str "data")
                                      then (fst kv, JString h) else kv
                          | None => kv
                          end)) ++ [58%N] ++
                       Json.stringify (snd (match option_map hashData (base64_data props) with
                          | Some h => if eqb (fst kv) (str "data")
                                      then (fst kv, JString h) else kv
                          | None => kv
                          end)))
               <= length (Json.quote (fst kv) ++ [58%N] ++ Json.stringify (snd kv))).
    { intros [k w] Hin. destruct (base64_data props) as [d|] eqn:Hb;
        cbn [option_map]; [|apply Nat.le_refl].
      cbn [fst snd]. destruct (eqb k (str "data")) eqn:E; [|apply Nat.le_refl].
      apply eqb_eq in E. subst k. cbn [fst snd].
      destruct (base64_data_inv props Hb) as (_ & Hda & Hlen).
      rewrite (@Get_In_NoDup _ _ _ Hk Hin) in Hda. injection Hda as ->.
      rewrite !length_app, length_stringify_digest.
      assert (H := length_stringify_string d). lia. }
    apply each_related; intros kv Hin; [now apply Hcur|].
    destruct (hasOwn (str "hasOwnProperty") props); [now apply Hcur|].
    generalize (Hcur kv Hin).
    destruct (option_map hashData (base64_data props)) as [h|].
    + destruct (eqb (fst kv) (str "data")); [auto|]. intros _.
      specialize (IH kv Hin (Hv kv Hin)).
      destruct (processObject (snd kv)); simpl in *; rewrite !length_app; simpl; lia.
    + intros _. specialize (IH kv Hin (Hv kv Hin)).
      destruct (processObject (snd kv)); simpl in *; rewrite !length_app; simpl; lia.
Qed.

Lemma rewritten_text_not_longer_witness :
  length (Json.stringify (state_of (processObject Cases.nested)))
  <= length (Json.stringify Cases.nested).
Proof. apply (@rewritten_text_not_longer Cases.nested). reflexivity. Defined.

(** ** What the driver does with each line *)


Lemma on_line_console st line :
  console (on_line st line) = console st ++ line_events (S (lineCount st)) line.
Proof.
  unfold on_line, line_events. destruct (transform line); reflexivity.
Qed.

Lemma deliver_console lines : forall sched st,
    console (snd (deliver sched lines st))
    = console st
      ++ flat_map (fun nl => line_events (fst nl) (snd nl))
                  (combine (seq (S (lineCount st)) (length lines)) lines).
Proof.
  induction lines as [|line rest IH]; intros sched st; cbn [deliver].
  - simpl. now rewrite app_nil_r.
  - rewrite IH, on_line_console.
    destruct (on_line_counters (writer_step (hd 0 sched) st) line) as (Hl & _).
    rewrite Hl. cbn [writer_step console lineCount length seq combine flat_map fst snd].
    now rewrite <- app_assoc.
Qed.

Lemma run_console fs sched lines inputPath outputDir :
  input_exists fs = true ->
  exists summary st,
    processJsonlFile fs sched lines inputPath outputDir = (Resolved summary, Some st)
    /\ console st
       = (if dir_exists fs then [] else [CreatedOutputDirectory])
         ++ flat_map (fun nl => line_events (fst nl) (snd nl))
                     (combine (seq 1 (length lines)) lines).
Proof.
  intros Hex. unfold processJsonlFile. rewrite Hex. cbn [negb].
  assert (Hc := deliver_console lines sched (initial fs)).
  destruct (deliver sched lines (initial fs)) as [sched' st]. cbn [snd] in Hc.
  unfold on_close. eexists. eexists. split; [reflexivity|exact Hc].
Qed.

(** X7.  The messages of a run, in order: for the line numbered [n]
    (from 1), the error message with that number and the exception when
    the handler ended in [catch], a progress message when the line was
    transformed and [n] is a multiple of 100, nothing otherwise; before
    them, the notice that the output directory was created if it was
    missing.  A failing line whose number is a multiple of 100 gets no
    progress message. *)
Theorem console_messages fs sched lines inputPath outputDir :
  input_exists fs = true ->
  exists summary st,
    processJsonlFile fs sched lines inputPath outputDir = (Resolved summary, Some st)
    /\ console st
       = (if dir_exists fs then [] else [CreatedOutputDirectory])
         ++ flat_map (fun nl => line_events (fst nl) (snd nl))
                     (combine (seq 1 (length lines)) lines)
    /\ (forall n line, fails line = true -> line_events n line
                       = match thrown (transform line) with
                         | Some e => [ErrorParsingLine n e]
                         | None => []
                         end)
    /\ (forall n line, fails line = false ->
                       line_events n line
                       = if Nat.eqb (n mod 100) 0 then [Progress n] else []).
Proof.
  intros Hex.
  destruct (run_console fs sched lines inputPath outputDir Hex)
    as (summary & st & Hrun & Hc).
  exists summary, st. split; [exact Hrun|]. split; [exact Hc|].
  split; intros n line Hf; unfold fails, line_events in *;
    destruct (transform line); try discriminate; reflexivity.
Qed.

Lemma console_messages_witness :
  exists summary st,
    processJsonlFile Sample.fs [0; 1] [Sample.spaced_line; Sample.bad_line]
                     (str "/in/s.jsonl") (str "/out")
    = (Resolved summary, Some st)
    /\ console st
       = (if dir_exists Sample.fs then [] else [CreatedOutputDirectory])
         ++ flat_map (fun nl => line_events (fst nl) (snd nl))
                     (combine (seq 1 (length [Sample.spaced_line; Sample.bad_line]))
                              [Sample.spaced_line; Sample.bad_line])
    /\ (forall n line, fails line = true -> line_events n line
                       = match thrown (transform line) with
                         | Some e => [ErrorParsingLine n e]
                         | None => []
                         end)
    /\ (forall n line, fails line = false ->
                       line_events n line
                       = if Nat.eqb (n mod 100) 0 then [Progress n] else []).
Proof.
  apply (@console_messages Sample.fs [0; 1] [Sample.spaced_line; Sample.bad_line]
           (str "/in/s.jsonl") (str "/out")).
  reflexivity.
Defined.

(** ** The size the summary reports *)

Lemma on_line_chunks st line :
  flushed (outputStream (on_line st line)) = flushed (outputStream st)
  /\ pending (outputStream (on_line st line))
     = pending (outputStream st) ++ [out_chunk line].
Proof.
  unfold on_line, out_chunk. destruct (transform line); auto.
Qed.

Lemma deliver_chunks lines : forall sched st,
    let w := outputStream (snd (deliver sched lines st)) in
    flushed w ++ pending w
    = flushed (outputStream st) ++ pending (outputStream st) ++ map out_chunk lines.
Proof.
  induction lines as [|line rest IH]; intros sched st; cbn [deliver].
  - cbn [snd map]. now rewrite app_nil_r.
  - cbv zeta in IH |- *. rewrite IH.
    destruct (on_line_chunks (writer_step (hd 0 sched) st) line) as [-> ->].
    cbn [writer_step outputStream Stream.flush flushed pending map].
    rewrite <- !app_assoc. f_equal.
    rewrite (app_assoc (firstn _ _)), firstn_skipn. reflexivity.
Qed.

Lemma list_sum_map_app {A} (f : A -> nat) (a b : list A) :
  list_sum (map f (a ++ b)) = list_sum (map f a) + list_sum (map f b).
Proof. now rewrite map_app, list_sum_app. Qed.

(** X8.  Whatever the writer's schedule, the size the summary reports
    and the bytes of the chunks still queued when the reader closes add
    up to the bytes of all the chunks written: the reported size never
    exceeds the size the file ends with, and it falls short of it by
    exactly what is queued. *)
Theorem reported_size fs sched lines inputPath outputDir :
  input_exists fs = true ->
  exists summary st,
    processJsonlFile fs sched lines inputPath outputDir = (Resolved summary, Some st)
    /\ outputSize summary + list_sum (map byteLength (pending (outputStream st)))
       = list_sum (map byteLength (map out_chunk lines))
    /\ Stream.final_size (outputStream st)
       = list_sum (map byteLength (map out_chunk lines)).
Proof.
  intros Hex. unfold processJsonlFile. rewrite Hex. cbn [negb].
  assert (Hc := deliver_chunks lines sched (initial fs)).
  destruct (deliver sched lines (initial fs)) as [sched' st].
  cbv zeta in Hc. cbn [snd initial outputStream Stream.create flushed pending app] in Hc.
  unfold on_close. eexists. eexists. split; [reflexivity|].
  cbn [outputSize outputStream writer_step].
  unfold Stream.stat_size, Stream.final_size, Stream.end_, Stream.flush.
  cbn [flushed pending].
  assert (Hp : list_sum (map byteLength (pending (outputStream st)))
               = list_sum (map byteLength (firstn (hd 0 sched') (pending (outputStream st))))
                 + list_sum (map byteLength (skipn (hd 0 sched') (pending (outputStream st)))))
    by (now rewrite <- list_sum_map_app, firstn_skipn).
  rewrite <- Hc, !list_sum_map_app. split; lia.
Qed.

Lemma reported_size_witness :
  exists summary st,
    processJsonlFile Sample.fs [0; 1] [Sample.spaced_line; Sample.bad_line]
                     (str "/in/s.jsonl") (str "/out")
    = (Resolved summary, Some st)
    /\ outputSize summary + list_sum (map byteLength (pending (outputStream st)))
       = list_sum (map byteLength (map out_chunk [Sample.spaced_line; Sample.bad_line]))
    /\ Stream.final_size (outputStream st)
       = list_sum (map byteLength (map out_chunk [Sample.spaced_line; Sample.bad_line])).
Proof.
  apply (@reported_size Sample.fs [0; 1] [Sample.spaced_line; Sample.bad_line]
           (str "/in/s.jsonl") (str "/out")).
  reflexivity.
Defined.

Lemma deliver_zeros lines : forall tail st,
    deliver (repeat 0 (length lines) ++ tail) lines st
    = (tail, snd (deliver [] lines st)).
Proof.
  induction lines as [|line rest IH]; intros tail st; [reflexivity|].
  cbn [length repeat app deliver hd tl]. apply IH.
Qed.

(** X9.  When the writer has completed every chunk by the time the
    reader closes, nothing is queued and the size the summary reports is
    the size of the whole output. *)
Theorem reported_size_when_caught_up fs lines inputPath outputDir :
  input_exists fs = true ->
  exists summary st,
    processJsonlFile fs (caught_up lines) lines inputPath outputDir
    = (Resolved summary, Some st)
    /\ pending (outputStream st) = []
    /\ flushed (outputStream st) = map out_chunk lines
    /\ outputSize summary = list_sum (map byteLength (map out_chunk lines)).
Proof.
  intros Hex. unfold processJsonlFile, caught_up. rewrite Hex. cbn [negb].
  rewrite deliver_zeros.
  destruct (deliver_idle lines (initial fs) eq_refl) as (Hfl & Hpe & _).
  cbn [initial outputStream Stream.create pending app] in Hpe.
  unfold on_close. eexists. eexists. split; [reflexivity|].
  cbn [outputSize outputStream writer_step hd].
  unfold Stream.stat_size, Stream.end_, Stream.flush. cbn [flushed pending].
  rewrite Hfl, Hpe. cbn [app].
  rewrite <- (length_map out_chunk lines), firstn_all, skipn_all. auto.
Qed.

Lemma reported_size_when_caught_up_witness :
  exists summary st,
    processJsonlFile Sample.fs (caught_up [Sample.spaced_line; Sample.bad_line])
                     [Sample.spaced_line; Sample.bad_line]
                     (str "/in/s.jsonl") (str "/out")
    = (Resolved summary, Some st)
    /\ pending (outputStream st) = []
    /\ flushed (outputStream st) = map out_chunk [Sample.spaced_line; Sample.bad_line]
    /\ outputSize summary
       = list_sum (map byteLength (map out_chunk [Sample.spaced_line; Sample.bad_line])).
Proof.
  apply (@reported_size_when_caught_up Sample.fs [Sample.spaced_line; Sample.bad_line]
           (str "/in/s.jsonl") (str "/out")).
  reflexivity.
Defined.



(** ** The output name and where the file goes *)

Lemma starts_with_length pat : forall s,
    starts_with pat s = true -> length pat <= length s.
Proof.
  induction pat as [|a pat IH]; intros s H; [simpl; lia|].
  destruct s as [|b s]; [discriminate|]. simpl in H.
  apply andb_true_iff in H as [_ H]. apply IH in H. simpl. lia.
Qed.

Lemma replace_absent pat rep : forall s,
    occurs pat s = false -> JsString.replace pat rep s = s.
Proof.
  induction s as [|c s IH]; intros H; cbn [occurs] in H;
    apply orb_false_iff in H as [Hs Hr]; cbn [JsString.replace]; rewrite Hs;
    [reflexivity|]. now rewrite IH.
Qed.

Lemma replace_length pat rep : forall s,
    occurs pat s = true ->
    length (JsString.replace pat rep s) + length pat = length s + length rep.
Proof.
  induction s as [|c s IH]; intros H; cbn [occurs] in H; cbn [JsString.replace].
  - rewrite orb_false_r in H. rewrite H.
    apply starts_with_length in H. rewrite length_app, length_skipn. lia.
  - destruct (starts_with pat (c :: s)) eqn:Hs.
    + apply starts_with_length in Hs. rewrite length_app, length_skipn. lia.
    + cbn [orb] in H. apply IH in H. simpl. lia.
Qed.

Lemma output_name_unchanged_iff_aux inputPath :
  (occurs (str ".jsonl") (Path.basename inputPath) = false ->
   outputFilename inputPath = Path.basename inputPath)
  /\ (occurs (str ".jsonl") (Path.basename inputPath) = true ->
      length (outputFilename inputPath) = length (Path.basename inputPath) + 7).
Proof.
  unfold outputFilename. split; [apply replace_absent|].
  intros H. apply (replace_length _ (str ".hashed.jsonl")) in H.
  change (length (str ".jsonl")) with 6 in H.
  change (length (str ".hashed.jsonl")) with 13 in H. lia.
Qed.

(** X11.  The output file has the name of the input file exactly when
    that name holds no [.jsonl]: the name is then left as it is; otherwise
    it gets 7 characters longer. *)
Theorem output_name_unchanged_iff : forall inputPath,
    (outputFilename inputPath = Path.basename inputPath
     <-> occurs (str ".jsonl") (Path.basename inputPath) = false)
    /\ (occurs (str ".jsonl") (Path.basename inputPath) = true ->
        length (outputFilename inputPath) = length (Path.basename inputPath) + 7).
Proof.
  intros inputPath. unfold outputFilename.
  set (name := Path.basename inputPath).
  assert (Hlen : occurs (str ".jsonl") name = true ->
                 length (JsString.replace (str ".jsonl") (str ".hashed.jsonl") name)
                 = length name + 7).
  { intros H. apply (replace_length _ (str ".hashed.jsonl")) in H.
    change (length (str ".jsonl")) with 6 in H.
    change (length (str ".hashed.jsonl")) with 13 in H. lia. }
  split; [|exact Hlen]. split.
  - intros H. destruct (occurs (str ".jsonl") name) eqn:E; [|reflexivity].
    specialize (Hlen eq_refl). rewrite H in Hlen. lia.
  - apply replace_absent.
Qed.

Lemma take_name_no_slash s : Forall (fun c => c <> Path.slash) (Path.take_name s).
Proof.
  induction s as [|c s IH]; simpl; [constructor|].
  destruct (N.eqb_spec c Path.slash); [constructor|]. now constructor.
Qed.

Lemma basename_no_slash p : Forall (fun c => c <> Path.slash) (Path.basename p).
Proof. unfold Path.basename. apply Forall_rev. apply take_name_no_slash. Qed.

Lemma skipn_Forall {A} (P : A -> Prop) n : forall l, Forall P l -> Forall P (skipn n l).
Proof.
  induction n as [|n IH]; intros l H; [exact H|].
  destruct l; [constructor|]. inversion H; subst. simpl. now apply IH.
Qed.

Lemma replace_no_slash pat rep : forall s,
    Forall (fun c => c <> Path.slash) rep ->
    Forall (fun c => c <> Path.slash) s ->
    Forall (fun c => c <> Path.slash) (JsString.replace pat rep s).
Proof.
  intros s Hrep. induction s as [|c s IH]; intros Hs; cbn [JsString.replace].
  - destruct (starts_with pat []); [|constructor].
    apply Forall_app. split; [exact Hrep|]. now apply skipn_Forall.
  - destruct (starts_with pat (c :: s)).
    + apply Forall_app. split; [exact Hrep|]. now apply skipn_Forall.
    + inversion Hs; subst. constructor; auto.
Qed.

Lemma split_acc_no_slash s : forall seg,
    Forall (fun c => c <> Path.slash) s -> Path.split_acc seg s = [rev seg ++ s].
Proof.
  induction s as [|c s IH]; intros seg H; simpl.
  - now rewrite app_nil_r.
  - inversion H as [|? ? Hc Hs]; subst.
    destruct (N.eqb_spec c Path.slash); [contradiction|].
    rewrite IH by exact Hs. simpl. now rewrite <- app_assoc.
Qed.

Lemma split_acc_app a b : forall seg,
    Path.split_acc seg (a ++ Path.slash :: b)
    = Path.split_acc seg a ++ Path.split_acc [] b.
Proof.
  induction a as [|c a IH]; intros seg; simpl.
  - reflexivity.
  - destruct (c =? Path.slash)%N; simpl; now rewrite IH.
Qed.

Lemma join_segments_snoc l x :
  Path.join_segments (l ++ [x])
  = match l with
    | [] => x
    | _ :: _ => Path.join_segments l ++ [Path.slash] ++ x
    end.
Proof.
  induction l as [|y l IH]; [reflexivity|].
  cbn [app Path.join_segments]. rewrite IH.
  destruct l as [|z l]; [reflexivity|].
  cbn [app]. now rewrite <- !app_assoc.
Qed.

Lemma last_app_nonempty {A} (a b : list A) d : b <> [] -> last (a ++ b) d = last b d.
Proof.
  intros Hb. induction a as [|x a IH]; [reflexivity|].
  cbn [app]. destruct (a ++ b) eqn:E; [|exact IH].
  apply app_eq_nil in E as [_ E]. contradiction.
Qed.

Lemma last_In {A} (l : list A) d : l <> [] -> In (last l d) l.
Proof.
  induction l as [|x l IH]; [congruence|]. intros _.
  destruct l as [|y l]; [now left|]. right. apply IH. discriminate.
Qed.

(** A proper file name: not empty, not [.] and not [..]. *)
Lemma push_proper_segment allow stack name :
  name <> [] -> name <> str "." -> name <> str ".." ->
  Path.push_segment allow stack name = name :: stack.
Proof.
  intros H0 H1 H2. unfold Path.push_segment.
  apply eqb_neq in H0, H1, H2. now rewrite H0, H1, H2.
Qed.

(** Normalizing a path that ends in a proper file name keeps the name at
    the end, after a slash or alone. *)
Lemma normalize_keeps_name pre name :
  (pre = [] \/ exists x, pre = x ++ [Path.slash]) ->
  Forall (fun c => c <> Path.slash) name ->
  name <> [] -> name <> str "." -> name <> str ".." ->
  exists X, Path.normalize (pre ++ name) = X ++ name
            /\ (X = [] \/ exists Y, X = Y ++ [Path.slash]).
Proof.
  intros Hpre Hns H0 H1 H2.
  assert (Hsplit : exists segs, Path.split (pre ++ name) = segs ++ [name]).
  { unfold Path.split. destruct Hpre as [->|(x & ->)].
    - exists []. now rewrite split_acc_no_slash.
    - rewrite <- app_assoc. cbn [app]. rewrite split_acc_app.
      rewrite (@split_acc_no_slash name []) by exact Hns. eauto. }
  destruct Hsplit as (segs & Hsplit).
  assert (Hq : forall allow, exists Z,
               Path.normalizeString (pre ++ name) allow = Z ++ name
               /\ (Z = [] \/ exists Y, Z = Y ++ [Path.slash])).
  { intros allow. unfold Path.normalizeString. rewrite Hsplit, fold_left_app.
    cbn [fold_left]. rewrite push_proper_segment by assumption.
    cbn [rev]. rewrite join_segments_snoc.
    match goal with |- context [match ?t with _ => _ end] =>
      destruct t as [|y l] end.
    - exists []. split; [reflexivity | now left].
    - exists (Path.join_segments (y :: l) ++ [Path.slash]).
      rewrite <- app_assoc. split; [reflexivity | right; eauto]. }
  assert (Hlast : (last (pre ++ name) 0%N =? Path.slash)%N = false).
  { rewrite last_app_nonempty by exact H0. apply N.eqb_neq.
    rewrite Forall_forall in Hns. apply Hns. now apply last_In. }
  unfold Path.normalize.
  destruct (pre ++ name) as [|c rest] eqn:Ep.
  { apply app_eq_nil in Ep as [_ Ep]. contradiction. }
  rewrite Hlast.
  destruct (Hq (negb (c =? Path.slash)%N)) as (Z & -> & HZ).
  destruct (Z ++ name) as [|z zs] eqn:Ez.
  { apply app_eq_nil in Ez as [_ Ez]. contradiction. }
  rewrite <- Ez.
  destruct (c =? Path.slash)%N.
  - exists (Path.slash :: Z). split; [reflexivity|].
    right. destruct HZ as [->|(Y & ->)]; [now exists [] | now exists (Path.slash :: Y)].
  - exists Z. auto.
Qed.

Lemma basename_after_slash X name :
  (X = [] \/ exists Y, X = Y ++ [Path.slash]) ->
  Forall (fun c => c <> Path.slash) name -> name <> [] ->
  Path.basename (X ++ name) = name.
Proof.
  intros HX Hns H0. unfold Path.basename. rewrite rev_app_distr.
  assert (Hr : Forall (fun c => c <> Path.slash) (rev name)) by now apply Forall_rev.
  assert (Hne : rev name <> []).
  { intros E. apply (f_equal (@rev N)) in E. rewrite rev_involutive in E.
    contradiction. }
  assert (Hdrop : forall tail, Path.drop_slashes (rev name ++ tail) = rev name ++ tail).
  { intros tail. destruct (rev name) as [|c r]; [contradiction|].
    inversion Hr; subst. cbn [app Path.drop_slashes].
    destruct (N.eqb_spec c Path.slash); [contradiction|reflexivity]. }
  rewrite Hdrop.
  assert (Htake : forall tail, (tail = [] \/ exists t, tail = Path.slash :: t) ->
                               Path.take_name (rev name ++ tail) = rev name).
  { intros tail Ht. clear Hdrop Hne. induction Hr as [|c r Hc _ IH]; cbn [app].
    - destruct Ht as [->|(t & ->)]; reflexivity.
    - cbn [Path.take_name]. destruct (N.eqb_spec c Path.slash); [contradiction|].
      now rewrite IH. }
  rewrite Htake; [apply rev_involutive|].
  destruct HX as [->|(Y & ->)]; [now left|].
  right. rewrite rev_app_distr. simpl. eauto.
Qed.

Lemma join_basename outputDir name :
  Forall (fun c => c <> Path.slash) name ->
  name <> [] -> name <> str "." -> name <> str ".." ->
  Path.basename (Path.join outputDir name) = name.
Proof.
  intros Hns P0 P1 P2.
  assert (Hjoin : exists pre, Path.join outputDir name = Path.normalize (pre ++ name)
                              /\ (pre = [] \/ exists x, pre = x ++ [Path.slash])).
  { unfold Path.join. destruct outputDir as [|c dir].
    - destruct name as [|n0 nm]; [contradiction|]. exists []. auto.
    - destruct name as [|n0 nm]; [contradiction|].
      exists ((c :: dir) ++ [Path.slash]). rewrite <- app_assoc. eauto. }
  destruct Hjoin as (pre & -> & Hpre).
  destruct (normalize_keeps_name Hpre Hns P0 P1 P2) as (X & -> & HX).
  now apply basename_after_slash.
Qed.

Lemma outputFilename_proper inputPath :
  Path.basename inputPath <> [] ->
  Path.basename inputPath <> str "." ->
  Path.basename inputPath <> str ".." ->
  Forall (fun c => c <> Path.slash) (outputFilename inputPath)
  /\ outputFilename inputPath <> [] /\ outputFilename inputPath <> str "."
  /\ outputFilename inputPath <> str "..".
Proof.
  intros H0 H1 H2. split.
  { unfold outputFilename. apply replace_no_slash; [|apply basename_no_slash].
    repeat constructor; discriminate. }
  destruct (output_name_unchanged_iff_aux inputPath) as [Hsame Hlen].
  destruct (occurs (str ".jsonl") (Path.basename inputPath)) eqn:E.
  - specialize (Hlen eq_refl).
    repeat split; intros Eq; rewrite Eq in Hlen; simpl in Hlen; lia.
  - rewrite (Hsame eq_refl). auto.
Qed.

(** X12.  When the input has a proper base name (not empty, not [.]
    and not [..]), the output name holds no slash and is the base name of
    the output path: the file is written in the output directory itself,
    whatever the directory and the name. *)
Theorem output_path_basename outputDir inputPath :
  Path.basename inputPath <> [] ->
  Path.basename inputPath <> str "." ->
  Path.basename inputPath <> str ".." ->
  Forall (fun c => c <> Path.slash) (outputFilename inputPath)
  /\ Path.basename (Path.join outputDir (outputFilename inputPath))
     = outputFilename inputPath.
Proof.
  intros H0 H1 H2.
  destruct (@outputFilename_proper inputPath H0 H1 H2) as (Hns & P0 & P1 & P2).
  split; [exact Hns|]. now apply join_basename.
Qed.

Lemma output_path_basename_witness :
  Forall (fun c => c <> Path.slash) (outputFilename (str "/in/s.jsonl"))
  /\ Path.basename (Path.join (str "/out/") (outputFilename (str "/in/s.jsonl")))
     = outputFilename (str "/in/s.jsonl").
Proof.
  apply (@output_path_basename (str "/out/") (str "/in/s.jsonl")); discriminate.
Defined.

(** ** The command line *)










